(** * RSS post bot: the synchronisation engine of [main.py]

    A shallow embedding of the feed-to-channel bot.  Python strings are
    lists of Unicode code points, the [posts] table is a list of rows whose
    primary key is enforced by [add_post], and the coroutines that touch the
    database, the logger or the Telegram bot are computations in a state and
    exception monad over an explicit world. *)

From Stdlib Require Import String Ascii.
From Stdlib Require Import List NArith ZArith Lia Bool.
Import ListNotations.

(* ================================================================== *)
(** * Python strings *)
(* ================================================================== *)

(** A [str] is a sequence of code points; [len] is [length], the slice
    [s[:n]] is [firstn n s]. *)
Definition pystr := list N.

(** An ASCII literal of the source, as code points. *)
Definition lit (s : string) : pystr :=
  map N_of_ascii (list_ascii_of_string s).

Fixpoint pystr_eqb (a b : pystr) : bool :=
  match a, b with
  | [], [] => true
  | x :: a', y :: b' => N.eqb x y && pystr_eqb a' b'
  | _, _ => false
  end.

(** [str.isspace] on one code point: the characters [str.strip()] removes. *)
Definition py_isspace (c : N) : bool :=
  ((9 <=? c) && (c <=? 13) || (28 <=? c) && (c <=? 32)
   || (c =? 133) || (c =? 160) || (c =? 5760)
   || (8192 <=? c) && (c <=? 8202)
   || (c =? 8232) || (c =? 8233) || (c =? 8239) || (c =? 8287)
   || (c =? 12288))%N.

Fixpoint lstrip (s : pystr) : pystr :=
  match s with
  | c :: s' => if py_isspace c then lstrip s' else s
  | [] => []
  end.

Definition rstrip (s : pystr) : pystr := rev (lstrip (rev s)).

Definition strip (s : pystr) : pystr := rstrip (lstrip s).

(** [s.replace(c, r)] for a one-character pattern [c]. *)
Definition replace_char (c : N) (r : pystr) (s : pystr) : pystr :=
  flat_map (fun x => if N.eqb x c then r else [x]) s.

Definition AMP : N := 38.
Definition LT : N := 60.
Definition GT : N := 62.
Definition QUOT : N := 34.
Definition APOS : N := 39.
Definition NL : N := 10.

(** [html.escape(s)] with its default [quote=True]: five successive
    [replace] passes, the ampersand first. *)
Definition html_escape (s : pystr) : pystr :=
  let s := replace_char AMP (lit "&amp;") s in
  let s := replace_char LT (lit "&lt;") s in
  let s := replace_char GT (lit "&gt;") s in
  let s := replace_char QUOT (lit "&quot;") s in
  replace_char APOS (lit "&#x27;") s.

(** The same escaping, one character at a time. *)
Definition escape_char (c : N) : pystr :=
  if N.eqb c AMP then lit "&amp;"
  else if N.eqb c LT then lit "&lt;"
  else if N.eqb c GT then lit "&gt;"
  else if N.eqb c QUOT then lit "&quot;"
  else if N.eqb c APOS then lit "&#x27;"
  else [c].

(* ================================================================== *)
(** * Feed items *)
(* ================================================================== *)

(** What [send_item] and [process_feed] read of one [<item>] element.
    A field is [None] when [item.find] returns no tag; [full_text] and
    [description] hold the tag's [.string], [None] also when that is
    [None]; [enclosure] holds the tag's [url] attribute, [Some None] for an
    enclosure tag that has none. *)
Record Item := {
  link_text : option pystr;
  title_text : option pystr;
  full_text : option pystr;
  description : option pystr;
  enclosure : option (option pystr)
}.

(** Truthiness of an optional string: [None] and the empty string are
    false. *)
Definition py_true (o : option pystr) : option pystr :=
  match o with
  | Some (c :: s) => Some (c :: s)
  | _ => None
  end.

(** [item.find('link').text.strip() if item.find('link') else None] *)
Definition item_link (it : Item) : option pystr :=
  option_map strip (link_text it).

(** The link when it passes the test [if link]. *)
Definition live_link (it : Item) : option pystr := py_true (item_link it).

(** The placeholder title, [Без назви]. *)
Definition NO_TITLE : pystr :=
  [1041; 1077; 1079; 32; 1085; 1072; 1079; 1074; 1080]%N.

Definition item_title (it : Item) : pystr :=
  match title_text it with
  | Some t => strip t
  | None => NO_TITLE
  end.

(** Full text first, the description as a fall-back, else empty. *)
Definition item_content_html (it : Item) : pystr :=
  match py_true (full_text it) with
  | Some s => s
  | None =>
      match py_true (description it) with
      | Some s => s
      | None => []
      end
  end.

(** The link labels, [Посилання] and [Підтримати]. *)
Definition LABEL_LINK : pystr :=
  [1055; 1086; 1089; 1080; 1083; 1072; 1085; 1085; 1103]%N.
Definition LABEL_SUPPORT : pystr :=
  [1055; 1110; 1076; 1090; 1088; 1080; 1084; 1072; 1090; 1080]%N.

(** The body part of the message: the escaped text, cut to 900 characters
    and followed by three dots when it is longer. *)
Definition body_part (safe_text : pystr) : pystr :=
  if 900 <? length safe_text then firstn 900 safe_text ++ lit "..."
  else safe_text.

Definition link_anchor (link : pystr) : pystr :=
  [NL; NL] ++ lit "<a href=" ++ [QUOT] ++ link ++ [QUOT] ++ lit ">"
  ++ LABEL_LINK ++ lit "</a>".

Definition support_anchor (mono : option pystr) : pystr :=
  match py_true mono with
  | Some m =>
      lit " | <a href=" ++ [QUOT] ++ m ++ [QUOT] ++ lit ">"
      ++ LABEL_SUPPORT ++ lit "</a>"
  | None => []
  end.

(** The message of [send_item], built from the raw title and the cleaned
    text. *)
Definition build_message (mono : option pystr) (title text_content link : pystr)
  : pystr :=
  let safe_title := html_escape title in
  let safe_text := html_escape text_content in
  let message_text := lit "<b>" ++ safe_title ++ lit "</b>" ++ [NL; NL] in
  let message_text := message_text ++ body_part safe_text in
  let message_text := message_text ++ link_anchor link in
  message_text ++ support_anchor mono.

(* ================================================================== *)
(** * The world: database, Telegram, logger *)
(* ================================================================== *)

(** A row of the table [posts (link TEXT PRIMARY KEY, published_date TEXT)]. *)
Record Row := { row_link : pystr; published_date : pystr }.

(** The two calls made on the bot; [chat_id] and [parse_mode] are the same
    constants in both and are left out. *)
Inductive SinkCall :=
| send_photo (photo caption : pystr)
| send_message (text : pystr).

(** One call that reached the bot: the link of the item it was made for,
    the call, and whether Telegram accepted it. *)
Record Delivery := { d_link : pystr; d_call : SinkCall; d_ok : bool }.

Inductive exn :=
| TelegramError      (* the bot call was rejected or the network failed *)
| OperationalError   (* sqlite: the database cannot be opened or used   *)
| IntegrityError     (* sqlite: UNIQUE constraint failed: posts.link    *)
| KeyError           (* [enclosure['url']] on a tag without that attribute *)
| ParserRejectedMarkup. (* bs4: [html.parser] gave up on the markup     *)

Inductive LogEntry :=
| InfoChecking                                (* "Checking feed..."          *)
| InfoPosted (title : pystr)                  (* "Posted: {title}"           *)
| ErrorSending (link : pystr) (e : exn)       (* "Error sending post ..."    *)
| ErrorFetchStatus (status : Z)               (* "Error fetching RSS: ..."   *)
| ErrorFetchException.                        (* "Exception fetching RSS: ..." *)

(** Everything the program changes.  [posts] is the content of the table
    once [init_db] has created it; [calls] and [log] grow at their end;
    [db_ops] counts the database connections opened so far and [slept] the
    seconds spent in [asyncio.sleep]. *)
Record World := {
  posts : list Row;
  calls : list Delivery;
  log : list LogEntry;
  db_ops : nat;
  slept : nat
}.

(** Everything the program reads but does not decide: the configured
    support link, the BeautifulSoup part of [clean_html] (whether the
    parser rejects a content, and the text it gives for a content it
    accepts), Telegram's answer to the n-th call, whether the n-th database
    connection works, and the clock read by the n-th connection. *)
Record Env := {
  MONOBANK_LINK : option pystr;
  parser_rejects : pystr -> bool;
  soup_text : pystr -> pystr;
  sink_accepts : nat -> SinkCall -> bool;
  db_up : nat -> bool;
  now : nat -> pystr
}.

(** The answer to [session.get(RSS_FEED_URL)]: a status with the [<item>]
    elements of the body in document order (an empty body has none), or a
    transport exception. *)
Inductive Response :=
| Status (code : Z) (items : list Item)
| ClientError.

(** ** State and exception monad *)

Inductive Res (A : Type) :=
| Ret (a : A)
| Raise (e : exn).
Arguments Ret {A} a.
Arguments Raise {A} e.

Definition M (A : Type) := World -> Res A * World.

Definition ret {A} (a : A) : M A := fun w => (Ret a, w).

Definition raise {A} (e : exn) : M A := fun w => (Raise e, w).

(** A call of a function that touches nothing but may raise. *)
Definition call {A} (r : Res A) : M A := fun w => (r, w).

Definition bind {A B} (m : M A) (k : A -> M B) : M B :=
  fun w =>
    match m w with
    | (Ret a, w') => k a w'
    | (Raise e, w') => (Raise e, w')
    end.

(** [try: m  except Exception as e: h e] *)
Definition try_except {A} (m : M A) (h : exn -> M A) : M A :=
  fun w =>
    match m w with
    | (Ret a, w') => (Ret a, w')
    | (Raise e, w') => h e w'
    end.

Declare Scope py_scope.
Delimit Scope py_scope with py.
Notation "x <- m ;; k" := (bind m (fun x => k))
  (at level 61, m at next level, right associativity) : py_scope.
Notation "m ;; k" := (bind m (fun _ => k))
  (at level 61, right associativity) : py_scope.
Open Scope py_scope.

(** [for x in l: body x] *)
Fixpoint for_each {A} (l : list A) (body : A -> M unit) : M unit :=
  match l with
  | [] => ret tt
  | x :: l' => body x ;; for_each l' body
  end.

Definition logging (e : LogEntry) : M unit :=
  fun w => (Ret tt, {| posts := posts w; calls := calls w;
                       log := log w ++ [e];
                       db_ops := db_ops w; slept := slept w |}).

Definition asyncio_sleep (n : nat) : M unit :=
  fun w => (Ret tt, {| posts := posts w; calls := calls w; log := log w;
                       db_ops := db_ops w; slept := slept w + n |}).

Definition has_link (link : pystr) (rows : list Row) : bool :=
  existsb (fun r => pystr_eqb link (row_link r)) rows.

Section Engine.

Variable env : Env.

(** ** The database *)

(** [aiosqlite.connect(DB_NAME)]: one more connection, which fails when the
    database is not available. *)
Definition connect : M unit :=
  fun w =>
    let w' := {| posts := posts w; calls := calls w; log := log w;
                 db_ops := S (db_ops w); slept := slept w |} in
    if db_up env (db_ops w) then (Ret tt, w')
    else (Raise OperationalError, w').

(** [CREATE TABLE IF NOT EXISTS posts]: the rows are left as they are. *)
Definition init_db : M unit := connect.

(** [SELECT 1 FROM posts WHERE link = ?] *)
Definition post_exists (link : pystr) : M bool :=
  connect ;; fun w => (Ret (has_link link (posts w)), w).

(** [INSERT INTO posts (link, published_date) VALUES (?, ?)]: the primary
    key makes the insert of a present link fail. *)
Definition add_post (link : pystr) : M unit :=
  connect ;;
  fun w =>
    if has_link link (posts w) then (Raise IntegrityError, w)
    else (Ret tt,
          {| posts := posts w
                      ++ [{| row_link := link;
                             published_date := now env (db_ops w) |}];
             calls := calls w; log := log w;
             db_ops := db_ops w; slept := slept w |}).

(** ** The bot *)

(** A call on the bot for the item with link [link]: it is recorded with
    Telegram's answer and raises when that answer is a rejection. *)
Definition bot_call (link : pystr) (c : SinkCall) : M unit :=
  fun w =>
    let ok := sink_accepts env (length (calls w)) c in
    let w' := {| posts := posts w;
                 calls := calls w ++ [{| d_link := link; d_call := c;
                                         d_ok := ok |}];
                 log := log w; db_ops := db_ops w; slept := slept w |} in
    if ok then (Ret tt, w') else (Raise TelegramError, w').

(** ** [clean_html] *)

(** The empty input returns at once, before any parsing.  On other input
    [BeautifulSoup(html_content, 'html.parser')] raises
    [ParserRejectedMarkup] when the parser rejects the markup; the rest
    (unescape, drop images, paragraphs and line breaks to newlines,
    [get_text], white-space clean-up) is the environment's [soup_text]. *)
Definition clean_html (html_content : pystr) : Res pystr :=
  match html_content with
  | [] => Ret []
  | _ =>
      if parser_rejects env html_content then Raise ParserRejectedMarkup
      else Ret (soup_text env html_content)
  end.

(** ** [send_item] *)

(** [enclosure['url'] if enclosure else None] *)
Definition item_image_url (it : Item) : M (option pystr) :=
  match enclosure it with
  | None => ret None
  | Some None => raise KeyError
  | Some (Some u) => ret (Some u)
  end.

(** The value of [text_content] once [clean_html] has returned. *)
Definition item_text_content (it : Item) : pystr :=
  match item_content_html it with
  | [] => []
  | content_html => soup_text env content_html
  end.

(** The message built for an item whose link is [link]. *)
Definition item_message (it : Item) (link : pystr) : pystr :=
  build_message (MONOBANK_LINK env) (item_title it) (item_text_content it) link.

(** The bot call chosen for the message: a photo with caption when the
    enclosure gave a non-empty url, a text message otherwise. *)
Definition sink_call (image_url : option pystr) (message_text : pystr)
  : SinkCall :=
  match py_true image_url with
  | Some u => send_photo u message_text
  | None => send_message message_text
  end.

Definition send_item (it : Item) : M unit :=
  match live_link it with
  | None => ret tt
  | Some link =>
      let title := item_title it in
      text_content <- call (clean_html (item_content_html it)) ;;
      image_url <- item_image_url it ;;
      let message_text :=
        build_message (MONOBANK_LINK env) title text_content link in
      try_except
        (bot_call link (sink_call image_url message_text) ;;
         add_post link ;;
         logging (InfoPosted title) ;;
         asyncio_sleep 3)
        (fun e => logging (ErrorSending link e))
  end.

(** ** [fetch_rss] and [process_feed] *)

Definition fetch_rss (r : Response) : M (option (list Item)) :=
  match r with
  | Status code items =>
      if Z.eqb code 200 then ret (Some items)
      else logging (ErrorFetchStatus code) ;; ret None
  | ClientError => logging ErrorFetchException ;; ret None
  end.

(** The body of the marking loop of the first run. *)
Definition mark_seen (item : Item) : M unit :=
  match live_link item with
  | Some link =>
      seen <- post_exists link ;;
      if seen then ret tt else add_post link
  | None => ret tt
  end.

(** The first-run branch: the newest item is the only candidate, then
    every item is marked as seen. *)
Definition bootstrap (items : list Item) : M unit :=
  match items with
  | [] => ret tt
  | latest_item :: _ =>
      match live_link latest_item with
      | Some latest_link =>
          seen <- post_exists latest_link ;;
          if seen then ret tt else send_item latest_item
      | None => ret tt
      end ;;
      for_each items mark_seen
  end.

(** The body of the loop of normal operation. *)
Definition steady_step (item : Item) : M unit :=
  match live_link item with
  | None => ret tt
  | Some link =>
      seen <- post_exists link ;;
      if seen then ret tt else send_item item
  end.

(** Normal operation: all items, oldest first. *)
Definition steady (items : list Item) : M unit :=
  for_each (rev items) steady_step.

(** [process_feed(first_run)], given the answer of the feed server. *)
Definition process_feed (first_run : bool) (r : Response) : M unit :=
  xml_content <- fetch_rss r ;;
  match xml_content with
  | None => ret tt
  | Some [] => ret tt
  | Some items => if first_run then bootstrap items else steady items
  end.

(** ** [scheduler] *)

(** The iterations of [while True] that the answers [rs] feed. *)
Fixpoint scheduler_loop (first_run : bool) (rs : list Response) : M unit :=
  match rs with
  | [] => ret tt
  | r :: rs' =>
      logging InfoChecking ;;
      process_feed first_run r ;;
      asyncio_sleep 300 ;;
      scheduler_loop false rs'
  end.

Definition scheduler (rs : list Response) : M unit :=
  init_db ;; scheduler_loop true rs.

(** The state in which a run of the process leaves the world when the
    process is stopped between two polls, after the polls that the answers
    [rs] feed, or is ended before by an exception of the scheduler.  A
    process stopped from outside in the middle of a poll is no
    [run_process]; [stopped_after_call] below is the one such state that
    the theorems look at. *)
Definition run_process (rs : list Response) (w : World) : World :=
  snd (scheduler rs w).

(** Several runs of the process, one after the other, on the same
    database. *)
Definition run_processes (runs : list (list Response)) (w : World) : World :=
  fold_left (fun w rs => run_process rs w) runs w.

End Engine.

(** A new database, a silent channel. *)
Definition fresh : World :=
  {| posts := []; calls := []; log := []; db_ops := 0; slept := 0 |}.

(* ================================================================== *)
(** * Predicates on messages and worlds *)
(* ================================================================== *)

(** ** What a well-escaped text looks like *)

Fixpoint prefixb (p s : pystr) : bool :=
  match p, s with
  | [], _ => true
  | x :: p', y :: s' => N.eqb x y && prefixb p' s'
  | _ :: _, [] => false
  end.

(** What follows the ampersand of one of the five entities. *)
Definition entity_tail (s : pystr) : bool :=
  prefixb (lit "amp;") s || prefixb (lit "lt;") s || prefixb (lit "gt;") s
  || prefixb (lit "quot;") s || prefixb (lit "#x27;") s.

(** No angle bracket, and every ampersand opens a complete entity. *)
Fixpoint escaped_ok (s : pystr) : bool :=
  match s with
  | [] => true
  | c :: s' =>
      negb (N.eqb c LT) && negb (N.eqb c GT)
      && (negb (N.eqb c AMP) || entity_tail s')
      && escaped_ok s'
  end.

(** No angle bracket at all. *)
Definition no_angle (s : pystr) : Prop := ~ In LT s /\ ~ In GT s.

(* ================================================================== *)
(** * Observations on worlds *)
(* ================================================================== *)

(** The primary keys in the table. *)
Definition keys (w : World) : list pystr := map row_link (posts w).

(** The records of a link. *)
Definition records_for (l : pystr) (w : World) : list Row :=
  filter (fun r => pystr_eqb l (row_link r)) (posts w).

(** The calls made for a link, oldest first. *)
Definition calls_for (l : pystr) (w : World) : list Delivery :=
  filter (fun d => pystr_eqb l (d_link d)) (calls w).

(** The database connection counter moved by one, as [connect] does. *)
Definition tick (w : World) : World :=
  {| posts := posts w; calls := calls w; log := log w;
     db_ops := S (db_ops w); slept := slept w |}.

(** How the world may change while the engine runs: records stay, the
    primary key stays a key, and every new call is for a link that had no
    record. *)
Definition evolves (w w' : World) : Prop :=
  (forall l, has_link l (posts w) = true -> has_link l (posts w') = true)
  /\ (NoDup (keys w) -> NoDup (keys w'))
  /\ exists ds, calls w' = calls w ++ ds
       /\ forall d, In d ds -> has_link (d_link d) (posts w) = false.

(** A step that relates every world to the one it leaves, whether it
    returns or raises. *)
Definition stepwise (R : World -> World -> Prop) {A} (m : M A) : Prop :=
  forall w, R w (snd (m w)).

(** The url that [item_image_url] returns when it returns. *)
Definition image_url_of (it : Item) : option pystr :=
  match enclosure it with
  | Some (Some u) => Some u
  | _ => None
  end.

(** An enclosure, when there is one, has its [url] attribute. *)
Definition well_formed (it : Item) : Prop := enclosure it <> Some None.

(** The parser accepts the content of the item: [clean_html] returns its
    text. *)
Definition parses (env : Env) (it : Item) : Prop :=
  clean_html env (item_content_html it) = Ret (item_text_content env it).

(** [send_item] gets as far as its [try] with the item. *)
Definition sendable (env : Env) (it : Item) : Prop :=
  parses env it /\ well_formed it.

(** The call [send_item] makes for an item whose link is [link]. *)
Definition item_call (env : Env) (it : Item) (link : pystr) : SinkCall :=
  sink_call (image_url_of it) (item_message env it link).

(** The items of a response that [process_feed] goes on with. *)
Definition feed_items (r : Response) : list Item :=
  match r with
  | Status code items => if Z.eqb code 200 then items else []
  | ClientError => []
  end.

(** Every linked item of the list has its record. *)
Definition all_recorded (items : list Item) (w : World) : Prop :=
  forall it l, In it items -> live_link it = Some l ->
               has_link l (posts w) = true.

(** The items of a feed that are candidates for delivery in world [w]:
    those with a link that has no record, in feed order. *)
Definition new_items (w : World) (items : list Item) : list Item :=
  filter (fun it => match live_link it with
                    | Some l => negb (has_link l (posts w))
                    | None => false
                    end) items.

(** [s] is [t] with some of its elements left out, the others in their
    order. *)
Inductive subseq {A : Type} : list A -> list A -> Prop :=
| subseq_nil : subseq [] []
| subseq_skip x s t : subseq s t -> subseq s (x :: t)
| subseq_take x s t : subseq s t -> subseq (x :: s) (x :: t).

(** The link of an item, empty when it has none. *)
Definition link_or_empty (it : Item) : pystr :=
  match live_link it with Some l => l | None => [] end.

(** The record of one call. *)
Definition delivery (env : Env) (it : Item) (l : pystr) (w : World) : Delivery :=
  {| d_link := l;
     d_call := item_call env it l;
     d_ok := sink_accepts env (length (calls w)) (item_call env it l) |}.

(** The world after the loop of normal operation has checked, sent and
    recorded an item: two database connections, one accepted call, the new
    row, the log line and the pause. *)
Definition sent_ok (env : Env) (it : Item) (l : pystr) (w : World) : World :=
  {| posts := posts w
              ++ [{| row_link := l;
                     published_date := now env (S (S (db_ops w))) |}];
     calls := calls w ++ [delivery env it l w];
     log := log w ++ [InfoPosted (item_title it)];
     db_ops := S (S (db_ops w));
     slept := slept w + 3 |}.

(** The world after it has checked an item and Telegram has rejected the
    call: one database connection, one rejected call, the error in the log,
    no row and no pause. *)
Definition sent_rejected (env : Env) (it : Item) (l : pystr) (w : World)
  : World :=
  {| posts := posts w;
     calls := calls w ++ [delivery env it l w];
     log := log w ++ [ErrorSending l TelegramError];
     db_ops := S (db_ops w);
     slept := slept w |}.

(** The world after the bot accepted the call and the insert failed with
    [e]: the call, the error in the log, no row. *)
Definition sent_unrecorded (env : Env) (it : Item) (l : pystr) (e : exn)
  (w : World) : World :=
  {| posts := posts w;
     calls := calls w ++ [delivery env it l w];
     log := log w ++ [ErrorSending l e];
     db_ops := S (db_ops w);
     slept := slept w |}.

(** The world after the marking loop has checked and recorded a link. *)
Definition marked (env : Env) (l : pystr) (w : World) : World :=
  {| posts := posts w
              ++ [{| row_link := l;
                     published_date := now env (S (S (db_ops w))) |}];
     calls := calls w;
     log := log w;
     db_ops := S (S (db_ops w));
     slept := slept w |}.

(** Every accepted call has its record. *)
Definition accepted_recorded (w : World) : Prop :=
  forall d, In d (calls w) -> d_ok d = true ->
            has_link (d_link d) (posts w) = true.

(** Every call of the list but the last one was rejected. *)
Definition rejected_but_last (ds : list Delivery) : Prop :=
  forall d, In d (removelast ds) -> d_ok d = false.

(** What holds between poll steps while the database is available. *)
Definition settled (w : World) : Prop :=
  accepted_recorded w /\ forall l, rejected_but_last (calls_for l w).

(** The database is available at every connection. *)
Definition available (env : Env) : Prop := forall n, db_up env n = true.


(** The calls one step of the loop of normal operation adds when the
    database is available and the step returns: one call for an item
    whose link has no record, none otherwise. *)
Definition step_calls (env : Env) (it : Item) (w : World) : list Delivery :=
  match live_link it with
  | Some l => if has_link l (posts w) then [] else [delivery env it l w]
  | None => []
  end.

(* ================================================================== *)
(** * Sample environments and items *)
(* ================================================================== *)

(** No support link, Telegram accepts everything, the database is always
    there; the parser rejects nothing and [soup_text] is the identity,
    which is what the parser returns on text with no markup, no entities
    and no surplus white space. *)
Definition plain_env : Env :=
  {| MONOBANK_LINK := None;
     parser_rejects := fun _ => false;
     soup_text := fun s => s;
     sink_accepts := fun _ _ => true;
     db_up := fun _ => true;
     now := fun _ => lit "2024-01-01T00:00:00" |}.

(** [plain_env] with a support link configured. *)
Definition support_env : Env :=
  {| MONOBANK_LINK := Some (lit "https://send.example/jar?a=1&b=2");
     parser_rejects := fun _ => false;
     soup_text := fun s => s;
     sink_accepts := fun _ _ => true;
     db_up := fun _ => true;
     now := fun _ => lit "2024-01-01T00:00:00" |}.

(** An item with a picture, a title of 200 characters and a body of 901. *)
Definition long_title_item : Item :=
  {| link_text := Some (lit "https://e.org/1");
     title_text := Some (repeat 84%N 200);
     full_text := None;
     description := Some (repeat 97%N 901);
     enclosure := Some (Some (lit "https://e.org/i.png")) |}.

(** An item whose body has an ampersand as its 899th character. *)
Definition amp_item : Item :=
  {| link_text := Some (lit "https://e.org/2");
     title_text := Some (lit "News");
     full_text := None;
     description := Some (repeat 97%N 898 ++ lit "& " ++ repeat 98%N 10);
     enclosure := None |}.

(** An item whose link holds a quote, angle brackets and an ampersand. *)
Definition quote_item : Item :=
  {| link_text := Some ([120; QUOT; GT; LT] ++ lit "b" ++ [GT; AMP])%N;
     title_text := Some (lit "News");
     full_text := None;
     description := Some (lit "body");
     enclosure := None |}.

(** ** A small feed *)

Definition post (link title body : string) : Item :=
  {| link_text := Some (lit link);
     title_text := Some (lit title);
     full_text := None;
     description := Some (lit body);
     enclosure := None |}.

Definition item_a : Item := post "https://e.org/a" "First" "one".
Definition item_b : Item := post "https://e.org/b" "Second" "two".
Definition item_c : Item := post "https://e.org/c" "Third" "three".

(** An item whose enclosure tag has no [url] attribute. *)
Definition bare_enclosure_item : Item :=
  {| link_text := Some (lit "https://e.org/d");
     title_text := Some (lit "Fourth");
     full_text := None;
     description := None;
     enclosure := Some None |}.

(** An item whose description holds a marked section that [html.parser]
    does not know: BeautifulSoup raises [ParserRejectedMarkup] on it. *)
Definition markup_item : Item :=
  {| link_text := Some (lit "https://e.org/m");
     title_text := Some (lit "Fifth");
     full_text := None;
     description := Some (lit "a <![x]> b");
     enclosure := None |}.

(** [plain_env] with a parser that rejects that description. *)
Definition strict_env : Env :=
  {| MONOBANK_LINK := None;
     parser_rejects := fun s => pystr_eqb s (lit "a <![x]> b");
     soup_text := fun s => s;
     sink_accepts := fun _ _ => true;
     db_up := fun _ => true;
     now := fun _ => lit "2024-01-01T00:00:00" |}.

(** Telegram rejects the second call it receives and accepts the others. *)
Definition flaky_env : Env :=
  {| MONOBANK_LINK := None;
     parser_rejects := fun _ => false;
     soup_text := fun s => s;
     sink_accepts := fun n _ => negb (Nat.eqb n 1);
     db_up := fun _ => true;
     now := fun _ => lit "2024-01-01T00:00:00" |}.

(** Telegram rejects the first call it receives and accepts the others. *)
Definition shy_env : Env :=
  {| MONOBANK_LINK := None;
     parser_rejects := fun _ => false;
     soup_text := fun s => s;
     sink_accepts := fun n _ => negb (Nat.eqb n 0);
     db_up := fun _ => true;
     now := fun _ => lit "2024-01-01T00:00:00" |}.

(** The database is away for its second connection only, the one of the
    first [post_exists] after [init_db]. *)
Definition outage_env : Env :=
  {| MONOBANK_LINK := None;
     parser_rejects := fun _ => false;
     soup_text := fun s => s;
     sink_accepts := fun _ _ => true;
     db_up := fun n => negb (Nat.eqb n 1);
     now := fun _ => lit "2024-01-01T00:00:00" |}.

(** Telegram rejects the first call it receives, and the database is away
    for its third connection only: in a run on a fresh table these are the
    call for the newest item of the first poll and the first
    [post_exists] of the marking loop that follows. *)
Definition shy_outage_env : Env :=
  {| MONOBANK_LINK := None;
     parser_rejects := fun _ => false;
     soup_text := fun s => s;
     sink_accepts := fun n _ => negb (Nat.eqb n 0);
     db_up := fun n => negb (Nat.eqb n 2);
     now := fun _ => lit "2024-01-01T00:00:00" |}.

(** Item [a] alone, then twice the feed in which [b] has appeared. *)
Definition three_polls : list Response :=
  [Status 200 [item_a]; Status 200 [item_b; item_a];
   Status 200 [item_b; item_a]].

(** Item [a] alone twice, then the feed in which [b] has appeared. *)
Definition settled_polls : list Response :=
  [Status 200 [item_a]; Status 200 [item_a]; Status 200 [item_b; item_a]].

(** The database is away for its third connection only: in the first run
    on a fresh table that is the insert inside [send_item]. *)
Definition late_outage_env : Env :=
  {| MONOBANK_LINK := None;
     parser_rejects := fun _ => false;
     soup_text := fun s => s;
     sink_accepts := fun _ _ => true;
     db_up := fun n => negb (Nat.eqb n 2);
     now := fun _ => lit "2024-01-01T00:00:00" |}.

(* ================================================================== *)
(** * White space, lines and the clean-up of [clean_html] *)
(* ================================================================== *)

(** Only white space, or nothing. *)
Definition blank (s : pystr) : bool := forallb py_isspace s.

(** Neither the first nor the last character is white space. *)
Definition trimmed (s : pystr) : Prop :=
  (forall c, hd_error s = Some c -> py_isspace c = false)
  /\ (forall c, hd_error (rev s) = Some c -> py_isspace c = false).

(** A link as both policies use it: not empty, no white space around. *)
Definition clean_link (l : pystr) : Prop := l <> [] /\ strip l = l.

(** The characters at which [str.splitlines()] ends a line; carriage
    return followed by line feed counts as one. *)
Definition is_line_boundary (c : N) : bool :=
  ((c =? 10) || (c =? 11) || (c =? 12) || (c =? 13) || (c =? 28)
   || (c =? 29) || (c =? 30) || (c =? 133) || (c =? 8232)
   || (c =? 8233))%N.

(** [splitlines] with the current line, last character first, in [cur]:
    a boundary closes the line, also an empty one; the end of the text
    closes it only when it is not empty. *)
Fixpoint splitlines_from (cur : pystr) (s : pystr) : list pystr :=
  match s with
  | [] => match cur with [] => [] | _ => [rev cur] end
  | c :: s' =>
      if N.eqb c 13 then
        match s' with
        | c' :: s'' =>
            if N.eqb c' 10 then rev cur :: splitlines_from [] s''
            else rev cur :: splitlines_from [] s'
        | [] => rev cur :: splitlines_from [] s'
        end
      else if is_line_boundary c then rev cur :: splitlines_from [] s'
      else splitlines_from (c :: cur) s'
  end.

(** [text.splitlines()] *)
Definition splitlines (text : pystr) : list pystr := splitlines_from [] text.

(** ['\n'.join(lines)] *)
Fixpoint join_lines (lines : list pystr) : pystr :=
  match lines with
  | [] => []
  | [l] => l
  | l :: rest => l ++ NL :: join_lines rest
  end.

(** [re.sub(r'\n{3,}', '\n\n', text)], reading the text with [run] line
    feeds met and not yet written: a run of three or more is written as
    two, a shorter one as it is. *)
Fixpoint collapse_newlines (run : nat) (s : pystr) : pystr :=
  match s with
  | [] => repeat NL (Nat.min run 2)
  | c :: s' =>
      if N.eqb c NL then collapse_newlines (S run) s'
      else repeat NL (Nat.min run 2) ++ c :: collapse_newlines 0 s'
  end.

(** What [clean_html] does to the text that [soup.get_text()] returns:
    every line stripped, the lines joined again, runs of line feeds cut to
    two, the whole stripped. *)
Definition tidy_text (text : pystr) : pystr :=
  let lines := map strip (splitlines text) in
  let text := join_lines lines in
  let text := collapse_newlines 0 text in
  strip text.

(** No three line feeds in a row. *)
Fixpoint no_triple_newline (s : pystr) : bool :=
  match s with
  | [] => true
  | _ :: s' => negb (prefixb [NL; NL; NL] s) && no_triple_newline s'
  end.

(** The environment's [soup_text] ends with the clean-up of the source:
    it is [tidy_text] after some [get_text] of unescaping and parsing. *)
Definition tidies (env : Env) : Prop :=
  exists get_text : pystr -> pystr,
    forall s, soup_text env s = tidy_text (get_text s).

(* ================================================================== *)
(** * More observations on worlds *)
(* ================================================================== *)

(** The world has only grown: rows, calls and log lines were added at the
    end, the counters have not gone back, every new row and every new call
    has a link that satisfies [P], and every new log line satisfies [Q]. *)
Definition extends (P : pystr -> Prop) (Q : LogEntry -> Prop)
  (w w' : World) : Prop :=
  (exists rows, posts w' = posts w ++ rows /\ Forall P (map row_link rows))
  /\ (exists ds, calls w' = calls w ++ ds /\ Forall P (map d_link ds))
  /\ (exists es, log w' = log w ++ es /\ Forall Q es)
  /\ db_ops w <= db_ops w'
  /\ slept w <= slept w'.

Definition is_checking (e : LogEntry) : bool :=
  match e with InfoChecking => true | _ => false end.

Definition is_posted (e : LogEntry) : bool :=
  match e with InfoPosted _ => true | _ => false end.

Definition is_send_error (e : LogEntry) : bool :=
  match e with ErrorSending _ _ => true | _ => false end.

(** The log line of a failed fetch, none for an answer 200. *)
Definition fetch_log (r : Response) : list LogEntry :=
  match r with
  | Status code _ => if Z.eqb code 200 then [] else [ErrorFetchStatus code]
  | ClientError => [ErrorFetchException]
  end.

(** Membership of a link in a list of links. *)
Definition mem_link (l : pystr) (ls : list pystr) : bool :=
  existsb (pystr_eqb l) ls.

(** The links of a feed that are not among [seen], each once, in feed
    order: what the marking loop of the first run inserts. *)
Fixpoint fresh_links (seen : list pystr) (items : list Item) : list pystr :=
  match items with
  | [] => []
  | it :: rest =>
      match live_link it with
      | Some l =>
          if mem_link l seen then fresh_links seen rest
          else l :: fresh_links (l :: seen) rest
      | None => fresh_links seen rest
      end
  end.

(** An environment whose [soup_text] is the clean-up alone. *)
Definition tidy_env : Env :=
  {| MONOBANK_LINK := None;
     parser_rejects := fun _ => false;
     soup_text := tidy_text;
     sink_accepts := fun _ _ => true;
     db_up := fun _ => true;
     now := fun _ => lit "2024-01-01T00:00:00" |}.

(** An item whose link text is a line feed and two spaces. *)
Definition blank_link_item : Item :=
  {| link_text := Some [NL; 32; 32]%N;
     title_text := Some (lit "Lost");
     full_text := None;
     description := Some (lit "nowhere");
     enclosure := None |}.

(** One of the five characters that [html.escape] replaces. *)
Definition is_special (c : N) : bool :=
  N.eqb c AMP || N.eqb c LT || N.eqb c GT || N.eqb c QUOT || N.eqb c APOS.

(** Reading the five entities of [html.escape] back; [skip] characters of
    an entity already read are still to be passed over. *)
Fixpoint entity_decode (skip : nat) (s : pystr) : pystr :=
  match s with
  | [] => []
  | c :: s' =>
      match skip with
      | S k => entity_decode k s'
      | O =>
          if N.eqb c AMP then
            if prefixb (lit "amp;") s' then AMP :: entity_decode 4 s'
            else if prefixb (lit "lt;") s' then LT :: entity_decode 3 s'
            else if prefixb (lit "gt;") s' then GT :: entity_decode 3 s'
            else if prefixb (lit "quot;") s' then QUOT :: entity_decode 5 s'
            else if prefixb (lit "#x27;") s' then APOS :: entity_decode 5 s'
            else c :: entity_decode 0 s'
          else c :: entity_decode 0 s'
      end
  end.

(** Three line feeds in a row somewhere in the text. *)
Definition has_triple_newline (s : pystr) : Prop :=
  exists a b, s = a ++ [NL; NL; NL] ++ b.

(** Two neighbours in a text are at odds when one is a line feed and the
    other a white-space character that is none. *)
Definition pair_ok (x y : N) : bool :=
  negb (N.eqb y NL && negb (N.eqb x NL) && py_isspace x)
  && negb (N.eqb x NL && negb (N.eqb y NL) && py_isspace y).

(** No line of the text has white space at its start or at its end: no
    two neighbours are at odds. *)
Fixpoint smooth (s : pystr) : bool :=
  match s with
  | x :: s' =>
      match s' with
      | y :: _ => pair_ok x y && smooth s'
      | [] => true
      end
  | [] => true
  end.

(** The line feed is the only line boundary in the text. *)
Definition only_line_feeds (s : pystr) : bool :=
  forallb (fun c => negb (is_line_boundary c) || N.eqb c NL) s.

(** The form of a text that the clean-up has nothing to do on. *)
Definition tidied (s : pystr) : Prop :=
  trimmed s /\ only_line_feeds s = true
  /\ no_triple_newline s = true /\ smooth s = true.
(* ================================================================== *)
(** * Escaping *)
(* ================================================================== *)

Lemma replace_char_app c r s t :
  replace_char c r (s ++ t) = replace_char c r s ++ replace_char c r t.
Proof. unfold replace_char. apply flat_map_app. Qed.

Lemma replace_char_other c r x :
  N.eqb x c = false -> replace_char c r [x] = [x].
Proof. intros H. unfold replace_char. simpl. now rewrite H. Qed.

(** The five passes of [html.escape] amount to one pass that escapes each
    character on its own: no pass touches what an earlier one wrote. *)
Lemma html_escape_cons c s :
  html_escape (c :: s) = escape_char c ++ html_escape s.
Proof.
  unfold html_escape.
  change (c :: s) with ([c] ++ s).
  rewrite !replace_char_app. f_equal.
  unfold escape_char.
  destruct (N.eqb c AMP) eqn:Ea.
  { apply N.eqb_eq in Ea. subst c. reflexivity. }
  rewrite replace_char_other by exact Ea.
  destruct (N.eqb c LT) eqn:El.
  { apply N.eqb_eq in El. subst c. reflexivity. }
  rewrite replace_char_other by exact El.
  destruct (N.eqb c GT) eqn:Eg.
  { apply N.eqb_eq in Eg. subst c. reflexivity. }
  rewrite replace_char_other by exact Eg.
  destruct (N.eqb c QUOT) eqn:Eq.
  { apply N.eqb_eq in Eq. subst c. reflexivity. }
  rewrite replace_char_other by exact Eq.
  destruct (N.eqb c APOS) eqn:Ep.
  { apply N.eqb_eq in Ep. subst c. reflexivity. }
  now rewrite replace_char_other by exact Ep.
Qed.

Lemma html_escape_flat_map s : html_escape s = flat_map escape_char s.
Proof.
  induction s as [|c s IH]; [reflexivity|].
  rewrite html_escape_cons, IH. reflexivity.
Qed.

Lemma escaped_ok_escape s : escaped_ok (html_escape s) = true.
Proof.
  induction s as [|c s IH]; [reflexivity|].
  rewrite html_escape_cons. unfold escape_char.
  destruct (N.eqb c AMP) eqn:Ea; [simpl; exact IH|].
  destruct (N.eqb c LT) eqn:El; [simpl; exact IH|].
  destruct (N.eqb c GT) eqn:Eg; [simpl; exact IH|].
  destruct (N.eqb c QUOT) eqn:Eq; [simpl; exact IH|].
  destruct (N.eqb c APOS) eqn:Ep; [simpl; exact IH|].
  simpl. rewrite El, Eg, Ea, IH. reflexivity.
Qed.

Lemma escaped_ok_no_angle s : escaped_ok s = true -> no_angle s.
Proof.
  induction s as [|c s IH]; simpl.
  - intros _. split; intros [].
  - intros H. apply andb_prop in H as [H Hs].
    apply andb_prop in H as [H _]. apply andb_prop in H as [Hl Hg].
    apply negb_true_iff, N.eqb_neq in Hl, Hg.
    destruct (IH Hs) as [IL IG].
    split; intros [E|E]; auto; congruence.
Qed.

Lemma no_angle_app s t : no_angle s -> no_angle t -> no_angle (s ++ t).
Proof.
  intros [A B] [C D]. split; intros H; apply in_app_or in H; tauto.
Qed.

Lemma In_firstn (x : N) n s : In x (firstn n s) -> In x s.
Proof.
  intros H. rewrite <- (firstn_skipn n s). apply in_or_app. now left.
Qed.

Lemma no_angle_firstn n s : no_angle s -> no_angle (firstn n s).
Proof.
  intros [A B]. split; intros H; apply In_firstn in H; tauto.
Qed.

(** Neither the escaped title nor the body part, cut or not, holds an
    angle bracket. *)
Lemma no_angle_escape s : no_angle (html_escape s).
Proof. apply escaped_ok_no_angle, escaped_ok_escape. Qed.

Lemma no_angle_body_part s : no_angle (body_part (html_escape s)).
Proof.
  unfold body_part. destruct (900 <? _).
  - apply no_angle_app.
    + apply no_angle_firstn, no_angle_escape.
    + split; simpl; unfold LT, GT; intros H;
        repeat destruct H as [H|H]; try discriminate; auto.
  - apply no_angle_escape.
Qed.

(** A body of at most 900 escaped characters goes into the message whole,
    with every entity complete. *)
Lemma escaped_ok_short_body s :
  length (html_escape s) <= 900 ->
  escaped_ok (body_part (html_escape s)) = true.
Proof.
  intros H. unfold body_part.
  destruct (900 <? length (html_escape s)) eqn:E.
  - apply Nat.ltb_lt in E. lia.
  - apply escaped_ok_escape.
Qed.

(* ================================================================== *)
(** * The message *)
(* ================================================================== *)

Lemma length_support_anchor mono :
  length (support_anchor mono)
  = match py_true mono with Some m => 28 + length m | None => 0 end.
Proof.
  unfold support_anchor. destruct (py_true mono) as [m|]; [|reflexivity].
  rewrite !length_app. simpl. lia.
Qed.

Lemma length_link_anchor link : length (link_anchor link) = 26 + length link.
Proof. unfold link_anchor. rewrite !length_app. simpl. lia. Qed.

Lemma length_build_message mono title text link :
  length (build_message mono title text link)
  = 9 + length (html_escape title) + length (body_part (html_escape text))
    + length (link_anchor link) + length (support_anchor mono).
Proof. unfold build_message. rewrite !length_app. simpl. lia. Qed.

Lemma body_part_long s :
  900 < length s -> body_part s = firstn 900 s ++ lit "...".
Proof.
  intros H. unfold body_part. apply Nat.ltb_lt in H. now rewrite H.
Qed.

(** X8.  The message of an item whose escaped body text is longer than 900
    characters: its body is exactly the first 900 characters of the escaped
    text followed by three dots (903 characters), and the whole message is
    938 characters plus the escaped title, the link and the support anchor
    (28 characters plus the support link, when one is configured).  Only
    the body is cut: the message is shorter than 1024 characters exactly
    when title, link and support anchor together are shorter than 86, and
    shorter than 4096 exactly when they are shorter than 3158. *)
Lemma truncated_body_and_message_length env it link :
  live_link it = Some link ->
  900 < length (html_escape (item_text_content env it)) ->
  let safe_title := html_escape (item_title it) in
  let safe_text := html_escape (item_text_content env it) in
  let extra := length safe_title + length link
               + length (support_anchor (MONOBANK_LINK env)) in
  item_message env it link
  = lit "<b>" ++ safe_title ++ lit "</b>" ++ [NL; NL]
    ++ (firstn 900 safe_text ++ lit "...")
    ++ link_anchor link ++ support_anchor (MONOBANK_LINK env)
  /\ length (firstn 900 safe_text ++ lit "...") = 903
  /\ length (item_message env it link) = 938 + extra
  /\ (length (item_message env it link) < 1024 <-> extra < 86)
  /\ (length (item_message env it link) < 4096 <-> extra < 3158).
Proof.
  intros _ Hlong safe_title safe_text extra.
  assert (Hbody : length (firstn 900 safe_text ++ lit "...") = 903).
  { rewrite length_app, length_firstn.
    change (length (lit "...")) with 3. unfold safe_text. lia. }
  assert (Hlen : length (item_message env it link) = 938 + extra).
  { unfold item_message. rewrite length_build_message.
    rewrite (body_part_long _ Hlong). fold safe_text. rewrite Hbody.
    rewrite length_link_anchor. unfold extra, safe_title. lia. }
  split; [|split; [exact Hbody|split; [exact Hlen|split; lia]]].
  unfold item_message, build_message.
  rewrite (body_part_long _ Hlong). fold safe_title safe_text.
  now rewrite <- !app_assoc.
Qed.

(** C6 at its failing input.  [long_title_item] has a picture, a title of
    200 characters and a body of 901, so its escaped body is longer than
    900 characters.  [send_item] cuts the body to its first 900 characters
    and three dots, appends title and link uncut, and calls [send_photo]
    with a caption of 1153 characters, 1116 of them outside the markup:
    not under the caption limit of 1024. *)
Theorem caption_longer_than_1024 :
  900 < length (html_escape (item_text_content plain_env long_title_item))
  /\ body_part (html_escape (item_text_content plain_env long_title_item))
     = repeat 97%N 900 ++ lit "..."
  /\ map d_call (calls (snd (send_item plain_env long_title_item fresh)))
     = [send_photo (lit "https://e.org/i.png")
          (item_message plain_env long_title_item (lit "https://e.org/1"))]
  /\ length (item_message plain_env long_title_item (lit "https://e.org/1"))
     = 1153
  /\ length (html_escape (item_title long_title_item)) + 2
     + length (body_part
                 (html_escape (item_text_content plain_env long_title_item)))
     + 2 + length LABEL_LINK
     = 1116
  /\ ~ length (item_message plain_env long_title_item (lit "https://e.org/1"))
       < 1024.
Proof.
  split; [vm_compute; lia|].
  split; [vm_compute; reflexivity|].
  split; [vm_compute; reflexivity|].
  split; [vm_compute; reflexivity|].
  split; [vm_compute; reflexivity|].
  vm_compute. lia.
Qed.

(** X7.  What the escaping does guarantee in every message: the title part is
    well escaped, the body part holds no angle bracket, and a body of at
    most 900 escaped characters is well escaped too. *)
Lemma title_and_short_body_escaped env it link :
  let safe_title := html_escape (item_title it) in
  let body := body_part (html_escape (item_text_content env it)) in
  item_message env it link
  = lit "<b>" ++ safe_title ++ lit "</b>" ++ [NL; NL] ++ body
    ++ link_anchor link ++ support_anchor (MONOBANK_LINK env)
  /\ escaped_ok safe_title = true
  /\ no_angle body
  /\ (length (html_escape (item_text_content env it)) <= 900 ->
      escaped_ok body = true).
Proof.
  intros safe_title body. split.
  - unfold item_message, build_message. now rewrite <- !app_assoc.
  - split; [apply escaped_ok_escape|].
    split; [apply no_angle_body_part|apply escaped_ok_short_body].
Qed.

(** C8 at its failing input.  The body of [amp_item] has an ampersand as
    its 899th character; its escaped text has 914 characters, the cut at
    900 falls inside the entity, and the message carries the ampersand
    followed by [a...], not by a complete entity. *)
Theorem truncation_splits_entity :
  body_part (html_escape (item_text_content plain_env amp_item))
  = repeat 97%N 898 ++ lit "&a" ++ lit "..."
  /\ escaped_ok
       (body_part (html_escape (item_text_content plain_env amp_item)))
     = false
  /\ map d_call (calls (snd (send_item plain_env amp_item fresh)))
     = [send_message
          (lit "<b>News</b>" ++ [NL; NL]
           ++ repeat 97%N 898 ++ lit "&a" ++ lit "..."
           ++ link_anchor (lit "https://e.org/2"))].
Proof.
  split; [vm_compute; reflexivity|].
  split; vm_compute; reflexivity.
Qed.

(** C10.  The link of the item, stripped of surrounding white space and
    nothing else, and the configured support link stand between the quotes
    of the two [href] attributes exactly as they are; only title and body
    pass through [html.escape]. *)
Theorem links_interpolated_verbatim env it link :
  live_link it = Some link ->
  option_map strip (link_text it) = Some link
  /\ item_message env it link
     = lit "<b>" ++ html_escape (item_title it) ++ lit "</b>" ++ [NL; NL]
       ++ body_part (html_escape (item_text_content env it))
       ++ [NL; NL] ++ lit "<a href=" ++ [QUOT] ++ link ++ [QUOT] ++ lit ">"
       ++ LABEL_LINK ++ lit "</a>"
       ++ match py_true (MONOBANK_LINK env) with
          | Some m =>
              lit " | <a href=" ++ [QUOT] ++ m ++ [QUOT] ++ lit ">"
              ++ LABEL_SUPPORT ++ lit "</a>"
          | None => []
          end.
Proof.
  intros H. split.
  - unfold live_link, item_link, py_true in H.
    destruct (option_map strip (link_text it)) as [[|c s]|]; congruence.
  - unfold item_message, build_message, link_anchor, support_anchor.
    now rewrite <- !app_assoc.
Qed.

(** A link with a quote, angle brackets and an ampersand reaches the
    message unescaped, inside the markup. *)
Lemma links_interpolated_verbatim_witness :
  item_message support_env quote_item
    ([120; QUOT; GT; LT] ++ lit "b" ++ [GT; AMP])%N
  = lit "<b>News</b>" ++ [NL; NL] ++ lit "body" ++ [NL; NL]
    ++ lit "<a href=" ++ [QUOT]
    ++ ([120; QUOT; GT; LT] ++ lit "b" ++ [GT; AMP])%N
    ++ [QUOT] ++ lit ">" ++ LABEL_LINK ++ lit "</a>"
    ++ lit " | <a href=" ++ [QUOT]
    ++ lit "https://send.example/jar?a=1&b=2"
    ++ [QUOT] ++ lit ">" ++ LABEL_SUPPORT ++ lit "</a>".
Proof.
  apply (links_interpolated_verbatim support_env quote_item
           ([120; QUOT; GT; LT] ++ lit "b" ++ [GT; AMP])%N).
  reflexivity.
Defined.

(* ================================================================== *)
(** * The monad *)
(* ================================================================== *)

Lemma pystr_eqb_eq a b : pystr_eqb a b = true <-> a = b.
Proof.
  revert b. induction a as [|x a IH]; intros [|y b]; simpl;
    try (split; [discriminate|discriminate]); [tauto|].
  rewrite andb_true_iff, N.eqb_eq, IH.
  split; [intros [-> ->]; reflexivity|intros H; injection H; auto].
Qed.

Lemma pystr_eqb_refl a : pystr_eqb a a = true.
Proof. now apply pystr_eqb_eq. Qed.

Lemma pystr_eqb_neq a b : pystr_eqb a b = false <-> a <> b.
Proof.
  rewrite <- pystr_eqb_eq. destruct (pystr_eqb a b); split; congruence.
Qed.

Lemma try_bind {A B} (m : M A) (k : A -> M B) h w :
  try_except (bind m k) h w
  = match m w with
    | (Ret a, w1) => try_except (k a) h w1
    | (Raise e, w1) => h e w1
    end.
Proof. unfold try_except, bind. destruct (m w) as [[a|e] w1]; reflexivity. Qed.

Lemma bind_ret {A B} (a : A) (k : A -> M B) w : bind (ret a) k w = k a w.
Proof. reflexivity. Qed.

(** [send_item] on an item with a link: [clean_html] first, which may
    raise, then the enclosure and the [try]. *)
Lemma send_item_split env it l w :
  live_link it = Some l ->
  send_item env it w
  = match clean_html env (item_content_html it) with
    | Ret text_content =>
        (image_url <- item_image_url it ;;
         try_except
           (bot_call env l
              (sink_call image_url
                 (build_message (MONOBANK_LINK env) (item_title it)
                    text_content l)) ;;
            add_post env l ;;
            logging (InfoPosted (item_title it)) ;;
            asyncio_sleep 3)
           (fun e => logging (ErrorSending l e))) w
    | Raise e => (Raise e, w)
    end.
Proof.
  intros El. unfold send_item. rewrite El. unfold bind at 1, call.
  destruct (clean_html env (item_content_html it)); reflexivity.
Qed.

(** The text that [clean_html] returns, when it returns. *)
Lemma clean_html_returns env it t :
  clean_html env (item_content_html it) = Ret t -> parses env it.
Proof.
  unfold parses, clean_html, item_text_content.
  destruct (item_content_html it) as [|c s]; [trivial|].
  destruct (parser_rejects env (c :: s)); [discriminate|trivial].
Qed.

Lemma clean_html_text env it t :
  clean_html env (item_content_html it) = Ret t ->
  t = item_text_content env it.
Proof.
  intros H. pose proof (clean_html_returns env it t H) as P.
  unfold parses in P. congruence.
Qed.

(** [clean_html] raises nothing but the parser's exception. *)
Lemma clean_html_raises env h e :
  clean_html env h = Raise e -> e = ParserRejectedMarkup.
Proof.
  unfold clean_html. destruct h as [|c s]; [discriminate|].
  destruct (parser_rejects env (c :: s)); congruence.
Qed.


(** ** Steps that respect a preorder on worlds *)

Section Stepwise.

Variable R : World -> World -> Prop.
Hypothesis R_refl : forall w, R w w.
Hypothesis R_trans : forall a b c, R a b -> R b c -> R a c.

Lemma stepwise_ret {A} (a : A) : stepwise R (ret a).
Proof. intros w. apply R_refl. Qed.

Lemma stepwise_raise {A} e : stepwise R (@raise A e).
Proof. intros w. apply R_refl. Qed.

Lemma stepwise_bind {A B} (m : M A) (k : A -> M B) :
  stepwise R m -> (forall a, stepwise R (k a)) -> stepwise R (bind m k).
Proof.
  intros Hm Hk w. unfold bind. specialize (Hm w).
  destruct (m w) as [[a|e] w1]; simpl in *; [|exact Hm].
  eapply R_trans; [exact Hm|apply Hk].
Qed.

Lemma stepwise_try {A} (m : M A) h :
  stepwise R m -> (forall e, stepwise R (h e)) -> stepwise R (try_except m h).
Proof.
  intros Hm Hh w. unfold try_except. specialize (Hm w).
  destruct (m w) as [[a|e] w1]; simpl in *; [exact Hm|].
  eapply R_trans; [exact Hm|apply Hh].
Qed.

Lemma stepwise_for_each {A} (l : list A) body :
  (forall x, stepwise R (body x)) -> stepwise R (for_each l body).
Proof.
  intros Hb. induction l as [|x l IH]; simpl.
  - apply stepwise_ret.
  - apply stepwise_bind; [apply Hb|intros _; exact IH].
Qed.

Lemma stepwise_if {A} (b : bool) (m1 m2 : M A) :
  stepwise R m1 -> stepwise R m2 -> stepwise R (if b then m1 else m2).
Proof. destruct b; auto. Qed.

End Stepwise.

(** ** From the loop bodies to the scheduler *)

(** A preorder respected by the primitive steps and by the two loop bodies
    is respected by a poll cycle, by the scheduler and by any number of runs
    of the process. *)
Section Lifting.

Variable env : Env.
Variable R : World -> World -> Prop.
Hypothesis R_refl : forall w, R w w.
Hypothesis R_trans : forall a b c, R a b -> R b c -> R a c.
Hypothesis R_connect : stepwise R (connect env).
Hypothesis R_logging : forall e, stepwise R (logging e).
Hypothesis R_sleep : forall n, stepwise R (asyncio_sleep n).
Hypothesis R_steady_step : forall it, stepwise R (steady_step env it).
Hypothesis R_mark_seen : forall it, stepwise R (mark_seen env it).

Lemma bootstrap_cons it rest :
  bootstrap env (it :: rest)
  = (steady_step env it ;; for_each (it :: rest) (mark_seen env)).
Proof. reflexivity. Qed.

Lemma lift_bootstrap items : stepwise R (bootstrap env items).
Proof.
  destruct items as [|it rest]; [now apply stepwise_ret|].
  rewrite bootstrap_cons.
  apply stepwise_bind; [exact R_trans|apply R_steady_step|].
  intros _. now apply stepwise_for_each.
Qed.

Lemma lift_steady items : stepwise R (steady env items).
Proof. now apply stepwise_for_each. Qed.

Lemma lift_fetch_rss r : stepwise R (fetch_rss r).
Proof.
  destruct r as [code items|]; simpl.
  - destruct (Z.eqb code 200); [now apply stepwise_ret|].
    apply stepwise_bind; [exact R_trans|apply R_logging|].
    intros _. now apply stepwise_ret.
  - apply stepwise_bind; [exact R_trans|apply R_logging|].
    intros _. now apply stepwise_ret.
Qed.

Lemma lift_process_feed b r : stepwise R (process_feed env b r).
Proof.
  unfold process_feed.
  apply stepwise_bind; [exact R_trans|apply lift_fetch_rss|].
  intros [[|it items]|]; try (now apply stepwise_ret).
  destruct b; [apply lift_bootstrap|apply lift_steady].
Qed.

Lemma lift_scheduler_loop b rs : stepwise R (scheduler_loop env b rs).
Proof.
  revert b. induction rs as [|r rs IH]; intros b; simpl.
  - now apply stepwise_ret.
  - apply stepwise_bind; [exact R_trans|apply R_logging|].
    intros _.
    apply stepwise_bind; [exact R_trans|apply lift_process_feed|].
    intros _. apply stepwise_bind; [exact R_trans|apply R_sleep|].
    intros _. apply IH.
Qed.

Lemma lift_scheduler rs : stepwise R (scheduler env rs).
Proof.
  unfold scheduler, init_db.
  apply stepwise_bind; [exact R_trans|apply R_connect|].
  intros _. apply lift_scheduler_loop.
Qed.

Lemma lift_run_processes runs w : R w (run_processes env runs w).
Proof.
  unfold run_processes. revert w.
  induction runs as [|rs runs IH]; intros w; simpl.
  - apply R_refl.
  - eapply R_trans; [|apply IH]. apply lift_scheduler.
Qed.

End Lifting.

(* ================================================================== *)
(** * The table and its key *)
(* ================================================================== *)

Lemma has_link_app l r1 r2 :
  has_link l (r1 ++ r2) = has_link l r1 || has_link l r2.
Proof. apply existsb_app. Qed.

Lemma has_link_In l rows : has_link l rows = true <-> In l (map row_link rows).
Proof.
  unfold has_link. rewrite existsb_exists, in_map_iff. split.
  - intros [r [Hr E]]. apply pystr_eqb_eq in E. exists r. auto.
  - intros [r [E Hr]]. exists r. split; [exact Hr|]. now apply pystr_eqb_eq.
Qed.

Lemma has_link_not_In l rows :
  has_link l rows = false <-> ~ In l (map row_link rows).
Proof.
  rewrite <- has_link_In. destruct (has_link l rows); split; congruence.
Qed.

Lemma has_link_last l l' d rows :
  has_link l (rows ++ [{| row_link := l'; published_date := d |}])
  = has_link l rows || pystr_eqb l l'.
Proof. rewrite has_link_app. simpl. now rewrite orb_false_r. Qed.

Lemma NoDup_snoc (l : pystr) ks : NoDup ks -> ~ In l ks -> NoDup (ks ++ [l]).
Proof.
  intros H N. apply NoDup_app; [exact H|repeat constructor; intros []|].
  intros a Ha [E|[]]. subst. contradiction.
Qed.

(** A key has at most one row. *)
Lemma NoDup_keys_records l w : NoDup (keys w) -> length (records_for l w) <= 1.
Proof.
  unfold keys, records_for. induction (posts w) as [|r rows IH]; simpl.
  - lia.
  - intros H. inversion H as [|? ? Hn Hd]; subst.
    destruct (pystr_eqb l (row_link r)) eqn:E; [|auto].
    apply pystr_eqb_eq in E. simpl.
    replace (filter (fun r0 => pystr_eqb l (row_link r0)) rows) with (@nil Row);
      [simpl; lia|].
    symmetry. clear IH H Hd. induction rows as [|r' rows IH]; [reflexivity|].
    simpl in *. destruct (pystr_eqb l (row_link r')) eqn:E'.
    + apply pystr_eqb_eq in E'. exfalso. apply Hn. left. congruence.
    + apply IH. tauto.
Qed.

(* ================================================================== *)
(** * What every step respects *)
(* ================================================================== *)

Lemma evolves_refl w : evolves w w.
Proof.
  split; [auto|split; [auto|]]. exists []. split; [now rewrite app_nil_r|].
  intros d [].
Qed.

Lemma evolves_trans a b c : evolves a b -> evolves b c -> evolves a c.
Proof.
  intros (P1 & N1 & ds1 & C1 & F1) (P2 & N2 & ds2 & C2 & F2).
  split; [auto|split; [auto|]].
  exists (ds1 ++ ds2). split; [rewrite C2, C1; symmetry; apply app_assoc|].
  intros d Hd. apply in_app_or in Hd as [Hd|Hd]; [auto|].
  specialize (F2 d Hd). specialize (P1 (d_link d)).
  destruct (has_link (d_link d) (posts a)); [|reflexivity].
  rewrite P1 in F2; [discriminate|reflexivity].
Qed.

(** A world with the same table and the same calls has evolved. *)
Lemma evolves_same_tables w w' :
  posts w' = posts w -> calls w' = calls w -> evolves w w'.
Proof.
  intros Hp Hc. unfold evolves, keys. rewrite Hp, Hc.
  split; [auto|split; [auto|]]. exists []. split; [now rewrite app_nil_r|].
  intros d [].
Qed.

Section Evolution.

Variable env : Env.

Lemma evolves_connect : stepwise evolves (connect env).
Proof.
  intros w. unfold connect.
  destruct (db_up env (db_ops w)); now apply evolves_same_tables.
Qed.

Lemma evolves_logging e : stepwise evolves (logging e).
Proof. intros w. now apply evolves_same_tables. Qed.

Lemma evolves_sleep n : stepwise evolves (asyncio_sleep n).
Proof. intros w. now apply evolves_same_tables. Qed.

Lemma evolves_read {A} (f : World -> A) :
  stepwise evolves (fun w => (Ret (f w), w)).
Proof. intros w. apply evolves_refl. Qed.

Lemma evolves_post_exists l : stepwise evolves (post_exists env l).
Proof.
  unfold post_exists.
  apply stepwise_bind; [exact evolves_trans|apply evolves_connect|].
  intros _ w. apply evolves_refl.
Qed.

Lemma evolves_insert l :
  stepwise evolves
    (fun w =>
       if has_link l (posts w) then (@Raise unit IntegrityError, w)
       else (Ret tt,
             {| posts := posts w
                         ++ [{| row_link := l;
                                published_date := now env (db_ops w) |}];
                calls := calls w; log := log w;
                db_ops := db_ops w; slept := slept w |})).
Proof.
  intros w. destruct (has_link l (posts w)) eqn:E; simpl.
  - apply evolves_refl.
  - unfold evolves, keys. simpl. split; [|split].
    + intros l' H. now rewrite has_link_app, H.
    + intros H. rewrite map_app. simpl.
      apply NoDup_snoc; [exact H|]. now apply has_link_not_In.
    + exists []. split; [now rewrite app_nil_r|]. intros d [].
Qed.

Lemma evolves_add_post l : stepwise evolves (add_post env l).
Proof.
  unfold add_post.
  apply stepwise_bind; [exact evolves_trans|apply evolves_connect|].
  intros _. apply evolves_insert.
Qed.

(** The rest of [send_item], once the bot call is made. *)
Lemma evolves_after_call l title :
  stepwise evolves
    (try_except
       (add_post env l ;; logging (InfoPosted title) ;; asyncio_sleep 3)
       (fun e => logging (ErrorSending l e))).
Proof.
  apply stepwise_try; [exact evolves_trans| |intros e; apply evolves_logging].
  apply stepwise_bind; [exact evolves_trans|apply evolves_add_post|].
  intros _. apply stepwise_bind; [exact evolves_trans|apply evolves_logging|].
  intros _. apply evolves_sleep.
Qed.

(** [send_item] for an item whose link has no record. *)
Lemma evolves_send_item it w :
  (forall l, live_link it = Some l -> has_link l (posts w) = false) ->
  evolves w (snd (send_item env it w)).
Proof.
  intros Hnew.
  destruct (live_link it) as [l|] eqn:El;
    [|unfold send_item; rewrite El; apply evolves_refl].
  specialize (Hnew l eq_refl). rewrite (send_item_split env it l w El).
  destruct (clean_html env (item_content_html it)) as [t|e];
    [|apply evolves_refl].
  unfold bind at 1. unfold item_image_url.
  destruct (enclosure it) as [[u|]|]; simpl; try apply evolves_refl.
  all: rewrite try_bind; unfold bot_call;
    match goal with
    | |- context [sink_accepts env ?n ?c] =>
        destruct (sink_accepts env n c)
    end.
  all: match goal with
       | |- evolves _ (snd (?f ?w1)) =>
           apply evolves_trans with w1
       end.
  all: try (apply evolves_after_call).
  all: try (apply evolves_logging).
  all: unfold evolves, keys; simpl;
    (split; [auto|split; [auto|]]);
    eexists; (split; [reflexivity|]);
    intros d [<-|[]]; exact Hnew.
Qed.

Lemma evolves_steady_step it : stepwise evolves (steady_step env it).
Proof.
  intros w. unfold steady_step.
  destruct (live_link it) as [l|] eqn:El; [|apply evolves_refl].
  unfold bind, post_exists, bind, connect.
  destruct (db_up env (db_ops w)); simpl; [|now apply evolves_same_tables].
  destruct (has_link l (posts w)) eqn:E; simpl;
    [now apply evolves_same_tables|].
  apply evolves_trans with (tick w); [now apply evolves_same_tables|].
  apply evolves_send_item. intros l' H. simpl. congruence.
Qed.

Lemma evolves_mark_seen it : stepwise evolves (mark_seen env it).
Proof.
  unfold mark_seen. destruct (live_link it) as [l|];
    [|apply stepwise_ret; exact evolves_refl].
  apply stepwise_bind; [exact evolves_trans|apply evolves_post_exists|].
  intros seen. apply stepwise_if;
    [apply stepwise_ret; exact evolves_refl|apply evolves_add_post].
Qed.

Lemma evolves_process_feed b r : stepwise evolves (process_feed env b r).
Proof.
  apply lift_process_feed;
    auto using evolves_refl, evolves_logging, evolves_steady_step,
      evolves_mark_seen.
  exact evolves_trans.
Qed.

Lemma evolves_scheduler_loop b rs : stepwise evolves (scheduler_loop env b rs).
Proof.
  apply lift_scheduler_loop;
    auto using evolves_refl, evolves_logging, evolves_sleep,
      evolves_steady_step, evolves_mark_seen.
  exact evolves_trans.
Qed.

Lemma evolves_run_processes runs w : evolves w (run_processes env runs w).
Proof.
  apply lift_run_processes;
    auto using evolves_refl, evolves_connect, evolves_logging, evolves_sleep,
      evolves_steady_step, evolves_mark_seen.
  exact evolves_trans.
Qed.

End Evolution.

(** Once a link has its record, no call is made for it any more. *)
Lemma evolves_recorded l w w' :
  evolves w w' -> has_link l (posts w) = true ->
  has_link l (posts w') = true /\ calls_for l w' = calls_for l w.
Proof.
  intros (P & _ & ds & C & F) H. split; [auto|].
  unfold calls_for. rewrite C, filter_app.
  replace (filter (fun d => pystr_eqb l (d_link d)) ds) with (@nil Delivery);
    [apply app_nil_r|].
  symmetry. clear C. induction ds as [|d ds IH]; [reflexivity|]. simpl.
  destruct (pystr_eqb l (d_link d)) eqn:E.
  - apply pystr_eqb_eq in E. subst l.
    rewrite (F d (or_introl eq_refl)) in H. discriminate.
  - apply IH. intros d' Hd'. apply F. now right.
Qed.

(* ================================================================== *)
(** * The loop bodies while the database is available *)
(* ================================================================== *)

Section Available.

Variable env : Env.
Hypothesis Hup : available env.

Lemma connect_up w : connect env w = (Ret tt, tick w).
Proof. unfold connect. now rewrite Hup. Qed.

Lemma post_exists_up l w :
  post_exists env l w = (Ret (has_link l (posts w)), tick w).
Proof. unfold post_exists, bind. now rewrite connect_up. Qed.

Lemma add_post_new l w :
  has_link l (posts w) = false ->
  add_post env l w
  = (Ret tt,
     {| posts := posts w
                 ++ [{| row_link := l;
                        published_date := now env (S (db_ops w)) |}];
        calls := calls w; log := log w;
        db_ops := S (db_ops w); slept := slept w |}).
Proof.
  intros H. unfold add_post, bind. rewrite connect_up. simpl. now rewrite H.
Qed.

Lemma item_image_url_wf it w :
  well_formed it -> item_image_url it w = (Ret (image_url_of it), w).
Proof.
  unfold well_formed, item_image_url, image_url_of.
  destruct (enclosure it) as [[u|]|]; intros H; try reflexivity.
  now contradiction H.
Qed.

(** [send_item] on an item whose link has no record. *)
Lemma send_item_new it l w :
  live_link it = Some l -> sendable env it -> has_link l (posts w) = false ->
  send_item env it w
  = (Ret tt,
     if sink_accepts env (length (calls w)) (item_call env it l)
     then {| posts := posts w
                      ++ [{| row_link := l;
                             published_date := now env (S (db_ops w)) |}];
             calls := calls w ++ [delivery env it l w];
             log := log w ++ [InfoPosted (item_title it)];
             db_ops := S (db_ops w);
             slept := slept w + 3 |}
     else {| posts := posts w;
             calls := calls w ++ [delivery env it l w];
             log := log w ++ [ErrorSending l TelegramError];
             db_ops := db_ops w;
             slept := slept w |}).
Proof.
  intros El [Hp Hwf] Hnew. rewrite (send_item_split env it l w El), Hp.
  unfold bind at 1. rewrite (item_image_url_wf _ _ Hwf).
  fold (item_message env it l).
  rewrite try_bind. unfold bot_call, delivery.
  fold (item_call env it l).
  destruct (sink_accepts env (length (calls w)) (item_call env it l)) eqn:Ok.
  - unfold try_except, bind at 1.
    rewrite add_post_new by exact Hnew.
    reflexivity.
  - reflexivity.
Qed.

Lemma steady_step_unlinked it w :
  live_link it = None -> steady_step env it w = (Ret tt, w).
Proof. intros H. unfold steady_step. now rewrite H. Qed.

Lemma steady_step_seen it l w :
  live_link it = Some l -> has_link l (posts w) = true ->
  steady_step env it w = (Ret tt, tick w).
Proof.
  intros El H. unfold steady_step, bind. rewrite El, post_exists_up.
  now rewrite H.
Qed.

Lemma steady_step_new it l w :
  live_link it = Some l -> sendable env it -> has_link l (posts w) = false ->
  steady_step env it w
  = (Ret tt,
     if sink_accepts env (length (calls w)) (item_call env it l)
     then sent_ok env it l w else sent_rejected env it l w).
Proof.
  intros El Hwf H. unfold steady_step, bind. rewrite El, post_exists_up.
  rewrite H. rewrite (send_item_new it l (tick w) El Hwf H). simpl.
  reflexivity.
Qed.

Lemma steady_step_rejected_markup it l e w :
  live_link it = Some l -> has_link l (posts w) = false ->
  clean_html env (item_content_html it) = Raise e ->
  steady_step env it w = (Raise e, tick w).
Proof.
  intros El H He. unfold steady_step, bind. rewrite El, post_exists_up.
  rewrite H. now rewrite (send_item_split env it l _ El), He.
Qed.

Lemma steady_step_key_error it l t w :
  live_link it = Some l -> has_link l (posts w) = false ->
  clean_html env (item_content_html it) = Ret t ->
  enclosure it = Some None ->
  steady_step env it w = (Raise KeyError, tick w).
Proof.
  intros El H Ht He. unfold steady_step, bind. rewrite El, post_exists_up.
  rewrite H. rewrite (send_item_split env it l _ El), Ht.
  unfold bind, item_image_url. now rewrite He.
Qed.


(** A step on an item that gets to the [try] returns. *)
Lemma steady_step_returns it w :
  sendable env it -> fst (steady_step env it w) = Ret tt.
Proof.
  intros Hs. destruct (live_link it) as [l|] eqn:El.
  - destruct (has_link l (posts w)) eqn:Hl.
    + now rewrite (steady_step_seen it l w El Hl).
    + now rewrite (steady_step_new it l w El Hs Hl).
  - now rewrite steady_step_unlinked.
Qed.

Lemma steady_loop_returns its :
  forall w,
    Forall (sendable env) its ->
    fst (for_each its (steady_step env) w) = Ret tt.
Proof.
  induction its as [|it its IH]; intros w H; [reflexivity|].
  apply Forall_cons_iff in H as [Hit H]. simpl. unfold bind.
  pose proof (steady_step_returns it w Hit) as R.
  destruct (steady_step env it w) as [[[]|e] w1]; simpl in R;
    [now apply IH|discriminate].
Qed.

(** An item with an unrecorded link either gets to the [try], or makes
    the step raise after its look-up. *)
Lemma sendable_or_raises it :
  sendable env it
  \/ exists e,
       forall l w, live_link it = Some l -> has_link l (posts w) = false ->
                   steady_step env it w = (Raise e, tick w).
Proof.
  destruct (clean_html env (item_content_html it)) as [t|e] eqn:Ht.
  - destruct (enclosure it) as [[u|]|] eqn:He.
    + left. split; [exact (clean_html_returns env it t Ht)|].
      unfold well_formed. congruence.
    + right. exists KeyError. intros l w El Hl.
      exact (steady_step_key_error it l t w El Hl Ht He).
    + left. split; [exact (clean_html_returns env it t Ht)|].
      unfold well_formed. congruence.
  - right. exists e. intros l w El Hl.
    exact (steady_step_rejected_markup it l e w El Hl Ht).
Qed.

Lemma mark_seen_unlinked it w :
  live_link it = None -> mark_seen env it w = (Ret tt, w).
Proof. intros H. unfold mark_seen. now rewrite H. Qed.

Lemma mark_seen_seen it l w :
  live_link it = Some l -> has_link l (posts w) = true ->
  mark_seen env it w = (Ret tt, tick w).
Proof.
  intros El H. unfold mark_seen, bind. rewrite El, post_exists_up.
  now rewrite H.
Qed.

Lemma mark_seen_new it l w :
  live_link it = Some l -> has_link l (posts w) = false ->
  mark_seen env it w = (Ret tt, marked env l w).
Proof.
  intros El H. unfold mark_seen, bind. rewrite El, post_exists_up.
  rewrite H. now rewrite (add_post_new l (tick w) H).
Qed.

(** ** Accepted calls are recorded, repeated calls were rejected *)

Lemma settled_grow w w' rows :
  posts w' = posts w ++ rows -> calls w' = calls w ->
  settled w -> settled w'.
Proof.
  intros Hp Hc [Ha Hr]. split.
  - intros d Hd Ok. rewrite Hc in Hd. rewrite Hp, has_link_app.
    now rewrite (Ha d Hd Ok).
  - intros l. unfold calls_for. rewrite Hc. apply Hr.
Qed.

Lemma settled_call w w' rows d :
  has_link (d_link d) (posts w) = false ->
  posts w' = posts w ++ rows -> calls w' = calls w ++ [d] ->
  (d_ok d = true -> has_link (d_link d) (posts w') = true) ->
  settled w -> settled w'.
Proof.
  intros Hnew Hp Hc Hd [Ha Hr]. split.
  - intros d' Hd' Ok. rewrite Hc in Hd'.
    apply in_app_or in Hd' as [Hd'|[<-|[]]]; [|auto].
    rewrite Hp, has_link_app. now rewrite (Ha d' Hd' Ok).
  - intros l. unfold calls_for. rewrite Hc, filter_app. simpl.
    destruct (pystr_eqb l (d_link d)) eqn:E.
    + apply pystr_eqb_eq in E. subst l. intros d'.
      rewrite removelast_last. intros Hd'.
      apply filter_In in Hd' as [Hd' E']. apply pystr_eqb_eq in E'.
      destruct (d_ok d') eqn:Ok; [|reflexivity].
      rewrite E', (Ha d' Hd' Ok) in Hnew. discriminate.
    + rewrite app_nil_r. apply Hr.
Qed.

Lemma settled_steady_step it :
  stepwise (fun w w' => settled w -> settled w') (steady_step env it).
Proof.
  intros w Hs.
  destruct (live_link it) as [l|] eqn:El;
    [|now rewrite steady_step_unlinked].
  destruct (has_link l (posts w)) eqn:Hl.
  { rewrite (steady_step_seen it l w El Hl). simpl.
    apply (settled_grow w (tick w) []); auto. now rewrite app_nil_r. }
  destruct (clean_html env (item_content_html it)) as [t|e] eqn:Ht.
  2:{ rewrite (steady_step_rejected_markup it l e w El Hl Ht). simpl.
      apply (settled_grow w (tick w) []); auto. now rewrite app_nil_r. }
  destruct (enclosure it) as [[u|]|] eqn:He.
  2:{ rewrite (steady_step_key_error it l t w El Hl Ht He). simpl.
      apply (settled_grow w (tick w) []); auto. now rewrite app_nil_r. }
  all: assert (Hwf : sendable env it)
    by (split; [exact (clean_html_returns env it t Ht)
               |unfold well_formed; congruence]).
  all: rewrite (steady_step_new it l w El Hwf Hl); simpl.
  all: destruct (sink_accepts env (length (calls w)) (item_call env it l))
         eqn:Ok.
  all: try (eapply (settled_call w (sent_ok env it l w) _ (delivery env it l w));
            [exact Hl|reflexivity|reflexivity| |exact Hs];
            intros _; simpl; rewrite has_link_last, pystr_eqb_refl;
            apply orb_true_r).
  all: eapply (settled_call w (sent_rejected env it l w) []
                 (delivery env it l w));
    [exact Hl|simpl; now rewrite app_nil_r|reflexivity| |exact Hs];
    unfold delivery; simpl; rewrite Ok; discriminate.
Qed.

Lemma settled_mark_seen it :
  stepwise (fun w w' => settled w -> settled w') (mark_seen env it).
Proof.
  intros w Hs.
  destruct (live_link it) as [l|] eqn:El;
    [|now rewrite mark_seen_unlinked].
  destruct (has_link l (posts w)) eqn:Hl.
  - rewrite (mark_seen_seen it l w El Hl). simpl.
    apply (settled_grow w (tick w) []); auto. now rewrite app_nil_r.
  - rewrite (mark_seen_new it l w El Hl). simpl.
    eapply (settled_grow w (marked env l w)); [reflexivity|reflexivity|auto].
Qed.

Lemma settled_same_tables {A} (m : M A) :
  (forall w, posts (snd (m w)) = posts w /\ calls (snd (m w)) = calls w) ->
  stepwise (fun w w' => settled w -> settled w') m.
Proof.
  intros H w Hs. destruct (H w) as [Hp Hc].
  apply (settled_grow w _ []); auto. now rewrite app_nil_r.
Qed.

Lemma settled_run_processes runs w :
  settled w -> settled (run_processes env runs w).
Proof.
  apply lift_run_processes; auto using settled_steady_step, settled_mark_seen.
  - intros; apply settled_same_tables. intros w0. unfold connect.
    destruct (db_up env (db_ops w0)); auto.
  - intros; apply settled_same_tables. auto.
  - intros; apply settled_same_tables. auto.
Qed.

End Available.

Lemma Forall_sendable env items :
  Forall well_formed items -> Forall (parses env) items ->
  Forall (sendable env) items.
Proof.
  intros Hw Hp. apply Forall_forall. intros it Hin.
  rewrite Forall_forall in Hw, Hp. split; auto.
Qed.

Lemma for_each_returned {A} (x : A) l body w :
  fst (for_each (x :: l) body w) = Ret tt ->
  fst (body x w) = Ret tt
  /\ fst (for_each l body (snd (body x w))) = Ret tt.
Proof.
  simpl. unfold bind. destruct (body x w) as [[[]|e] w1]; simpl; auto.
  discriminate.
Qed.

Lemma rejected_but_last_accepted ds :
  rejected_but_last ds -> length (filter d_ok ds) <= 1.
Proof.
  unfold rejected_but_last. induction ds as [|d ds IH]; simpl; [lia|].
  destruct ds as [|d' ds].
  - intros _. simpl. destruct (d_ok d); simpl; lia.
  - intros H. rewrite (H d (or_introl eq_refl)).
    apply IH. intros d0 H0. apply H. now right.
Qed.

(** C1, as amended.  Start from a table whose links are distinct and a
    channel that has received nothing.  After any number of runs of the
    process, each with any number of poll cycles and each stopped between
    two polls or ended by an exception, the table holds at most one record
    for every link; and, as long as the database is available, every call
    made for the link but the last one was rejected by Telegram, so at
    most one call for the link was accepted.  A run that is stopped in the
    middle of a poll is left out: a stop between an accepted call and the
    insert that follows it is followed by a second accepted call, as the
    last section of this file shows. *)
Theorem uniqueness_of_records_and_accepted_calls env runs w0 l :
  NoDup (keys w0) -> calls w0 = [] ->
  let w := run_processes env runs w0 in
  length (records_for l w) <= 1
  /\ (available env ->
      rejected_but_last (calls_for l w)
      /\ length (filter d_ok (calls_for l w)) <= 1).
Proof.
  intros Hk Hc w. split.
  - apply NoDup_keys_records.
    now apply (evolves_run_processes env runs w0).
  - intros Hup.
    assert (Hs : settled w).
    { apply settled_run_processes; [exact Hup|].
      split; [intros d Hd; rewrite Hc in Hd; destruct Hd|].
      intros l'. unfold calls_for. rewrite Hc. intros d []. }
    destruct Hs as [_ Hr]. split; [apply Hr|].
    apply rejected_but_last_accepted, Hr.
Qed.

Lemma uniqueness_of_records_and_accepted_calls_witness :
  length (records_for (lit "https://e.org/b")
            (run_processes flaky_env [three_polls] fresh)) <= 1
  /\ length (filter d_ok
               (calls_for (lit "https://e.org/b")
                  (run_processes flaky_env [three_polls] fresh))) <= 1.
Proof.
  destruct (uniqueness_of_records_and_accepted_calls flaky_env [three_polls]
              fresh (lit "https://e.org/b"))
    as [A B].
  - constructor.
  - reflexivity.
  - split; [exact A|]. apply B. intros n. reflexivity.
Defined.

(** C1 as stated fails: item [b] appears in the second poll, Telegram
    rejects its call, and the third poll calls Telegram for [b] again: two
    delivery calls for one link, of which the second is accepted. *)
Lemma two_calls_for_one_link :
  map d_ok (calls_for (lit "https://e.org/b")
              (run_process flaky_env three_polls fresh))
  = [false; true]
  /\ ~ length (calls_for (lit "https://e.org/b")
                 (run_process flaky_env three_polls fresh)) <= 1.
Proof.
  split; [vm_compute; reflexivity|]. vm_compute. lia.
Qed.

(* ================================================================== *)
(** * The first run *)
(* ================================================================== *)

Section FirstRun.

Variable env : Env.
Hypothesis Hup : available env.

Lemma mark_seen_spec it w :
  exists w1,
    mark_seen env it w = (Ret tt, w1)
    /\ calls w1 = calls w /\ log w1 = log w
    /\ (exists rows, posts w1 = posts w ++ rows)
    /\ (forall l, live_link it = Some l -> has_link l (posts w1) = true).
Proof.
  destruct (live_link it) as [l|] eqn:El.
  - destruct (has_link l (posts w)) eqn:Hl.
    + exists (tick w). rewrite (mark_seen_seen env Hup it l w El Hl).
      repeat split; auto.
      * exists []. simpl. now rewrite app_nil_r.
      * intros l' E. injection E as <-. exact Hl.
    + exists (marked env l w). rewrite (mark_seen_new env Hup it l w El Hl).
      repeat split; auto.
      * eexists. reflexivity.
      * intros l' E. injection E as <-. simpl.
        rewrite has_link_last, pystr_eqb_refl. apply orb_true_r.
  - exists w. rewrite (mark_seen_unlinked env it w El).
    repeat split; auto.
    + exists []. now rewrite app_nil_r.
    + discriminate.
Qed.

(** The marking loop returns, calls nobody, logs nothing and leaves every
    linked item recorded. *)
Lemma mark_all items w :
  exists w',
    for_each items (mark_seen env) w = (Ret tt, w')
    /\ calls w' = calls w /\ log w' = log w
    /\ (exists rows, posts w' = posts w ++ rows)
    /\ all_recorded items w'.
Proof.
  revert w. induction items as [|it items IH]; intros w.
  - exists w. repeat split; auto.
    + exists []. now rewrite app_nil_r.
    + intros it l [].
  - destruct (mark_seen_spec it w) as (w1 & E1 & C1 & L1 & [r1 P1] & R1).
    destruct (IH w1) as (w' & E' & C' & L' & [r' P'] & R').
    exists w'. simpl. unfold bind. rewrite E1, E'.
    repeat split; try congruence.
    + exists (r1 ++ r'). rewrite P', P1. symmetry. apply app_assoc.
    + intros it' l [<-|Hin] El; [|eauto].
      rewrite P', has_link_app. now rewrite (R1 l El).
Qed.

Lemma process_feed_200 b it items w :
  process_feed env b (Status 200 (it :: items)) w
  = (if b then bootstrap env (it :: items) else steady env (it :: items)) w.
Proof. reflexivity. Qed.

(** The first step of the first run: the newest item is sent when its link
    has no record. *)
Lemma first_step it w :
  sendable env it ->
  exists w1,
    steady_step env it w = (Ret tt, w1)
    /\ (exists rows, posts w1 = posts w ++ rows)
    /\ calls w1
       = calls w ++ match live_link it with
                    | Some l => if has_link l (posts w) then []
                                else [delivery env it l w]
                    | None => []
                    end.
Proof.
  intros Hwf. destruct (live_link it) as [l|] eqn:El.
  - destruct (has_link l (posts w)) eqn:Hl.
    + exists (tick w). rewrite (steady_step_seen env Hup it l w El Hl).
      simpl. rewrite app_nil_r. repeat split.
      exists []. now rewrite app_nil_r.
    + rewrite (steady_step_new env Hup it l w El Hwf Hl).
      destruct (sink_accepts env (length (calls w)) (item_call env it l)).
      * exists (sent_ok env it l w). repeat split. eexists. reflexivity.
      * exists (sent_rejected env it l w). repeat split.
        exists []. simpl. now rewrite app_nil_r.
  - exists w. rewrite (steady_step_unlinked env it w El).
    rewrite !app_nil_r. repeat split. exists []. now rewrite app_nil_r.
Qed.

End FirstRun.

(** ** The calls of the first run, whatever the database does *)

Section FirstRunCalls.

Variable env : Env.

Let same_calls (w w' : World) : Prop := calls w' = calls w.

Lemma same_calls_trans a b c :
  same_calls a b -> same_calls b c -> same_calls a c.
Proof. unfold same_calls. congruence. Qed.

Lemma same_calls_connect : stepwise same_calls (connect env).
Proof. intros w. unfold connect. now destruct (db_up env (db_ops w)). Qed.

Lemma same_calls_post_exists l : stepwise same_calls (post_exists env l).
Proof.
  unfold post_exists.
  apply stepwise_bind; [exact same_calls_trans|apply same_calls_connect|].
  intros _ w. reflexivity.
Qed.

Lemma same_calls_add_post l : stepwise same_calls (add_post env l).
Proof.
  unfold add_post.
  apply stepwise_bind; [exact same_calls_trans|apply same_calls_connect|].
  intros _ w. now destruct (has_link l (posts w)).
Qed.

Lemma same_calls_mark_seen it : stepwise same_calls (mark_seen env it).
Proof.
  unfold mark_seen. destruct (live_link it) as [l|]; [|now intros w].
  apply stepwise_bind; [exact same_calls_trans|apply same_calls_post_exists|].
  intros seen. apply stepwise_if; [now intros w|apply same_calls_add_post].
Qed.

Lemma same_calls_after_call l title :
  stepwise same_calls
    (try_except
       (add_post env l ;; logging (InfoPosted title) ;; asyncio_sleep 3)
       (fun e => logging (ErrorSending l e))).
Proof.
  apply stepwise_try; [exact same_calls_trans| |now intros e w].
  apply stepwise_bind; [exact same_calls_trans|apply same_calls_add_post|].
  intros _. apply stepwise_bind; [exact same_calls_trans|now intros w|].
  now intros _ w.
Qed.

(** One step of the loop of normal operation makes at most one call, for
    its item, and only when the item's link has no record. *)
Lemma steady_step_calls it w :
  calls (snd (steady_step env it w)) = calls w
  \/ exists l,
       live_link it = Some l /\ has_link l (posts w) = false
       /\ calls (snd (steady_step env it w))
          = calls w ++ [delivery env it l w].
Proof.
  unfold steady_step. destruct (live_link it) as [l|] eqn:El; [|now left].
  unfold bind at 1, post_exists, bind, connect.
  destruct (db_up env (db_ops w)); simpl; [|now left].
  destruct (has_link l (posts w)) eqn:Hl; simpl; [now left|].
  rewrite (send_item_split env it l _ El).
  destruct (clean_html env (item_content_html it)) as [t|e] eqn:Ht;
    [|now left].
  apply clean_html_text in Ht. subst t. fold (item_message env it l).
  unfold bind at 1, item_image_url.
  destruct (enclosure it) as [[u|]|] eqn:He; simpl; [|now left|].
  all: right; exists l; split; [reflexivity|]; split; [exact Hl|].
  all: rewrite bind_ret, try_bind;
    unfold bot_call, delivery, item_call, image_url_of;
    rewrite He; simpl;
    match goal with
    | |- context [sink_accepts env ?n ?c] => destruct (sink_accepts env n c)
    end.
  all: try (rewrite (same_calls_after_call l (item_title it)); reflexivity).
  all: reflexivity.
Qed.

(** The first run makes at most one call, for the newest item, and only
    when that item's link has no record: in every environment. *)
Lemma first_run_calls I0 rest w :
  let w' := snd (process_feed env true (Status 200 (I0 :: rest)) w) in
  calls w' = calls w
  \/ exists l,
       live_link I0 = Some l /\ has_link l (posts w) = false
       /\ calls w' = calls w ++ [delivery env I0 l w].
Proof.
  intros w'. subst w'. rewrite process_feed_200, bootstrap_cons.
  assert (Hm : forall w1,
             calls (snd (for_each (I0 :: rest) (mark_seen env) w1)) = calls w1).
  { apply (stepwise_for_each same_calls); [now intros w1| |].
    - exact same_calls_trans.
    - apply same_calls_mark_seen. }
  unfold bind. destruct (steady_step_calls I0 w) as [H|(l & El & Hl & H)];
    destruct (steady_step env I0 w) as [[[]|e] w1]; simpl in *.
  - left. now rewrite Hm.
  - now left.
  - right. exists l. now rewrite Hm.
  - right. exists l. auto.
Qed.

End FirstRunCalls.



(** C2 at its failing input.  The table is empty, the database available,
    and the newest of the two items of the first feed has a link and an
    [enclosure] tag without [url].  [send_item] raises the key error at
    [enclosure['url']], before its [try]; the error leaves [process_feed]
    before the marking loop has started, so after the cycle neither item
    has a record although both have a link; and the error ends the
    scheduler, whose second poll never starts. *)
Theorem bare_enclosure_aborts_first_run :
  map live_link [bare_enclosure_item; item_a]
  = [Some (lit "https://e.org/d"); Some (lit "https://e.org/a")]
  /\ process_feed plain_env true
       (Status 200 [bare_enclosure_item; item_a]) fresh
     = (Raise KeyError, tick fresh)
  /\ ~ all_recorded [bare_enclosure_item; item_a]
        (snd (process_feed plain_env true
                (Status 200 [bare_enclosure_item; item_a]) fresh))
  /\ scheduler plain_env
       [Status 200 [bare_enclosure_item; item_a];
        Status 200 [bare_enclosure_item; item_a]] fresh
     = (Raise KeyError,
        {| posts := []; calls := []; log := [InfoChecking];
           db_ops := 2; slept := 0 |}).
Proof.
  split; [reflexivity|]. split; [reflexivity|]. split; [|reflexivity].
  intros H.
  specialize (H item_a (lit "https://e.org/a")
                (or_intror (or_introl eq_refl)) eq_refl).
  discriminate.
Qed.

(** The same with markup that the parser rejects: [clean_html] raises
    before the [try] of [send_item], and the first run records nothing. *)
Lemma rejected_markup_aborts_first_run :
  ~ parses strict_env markup_item
  /\ process_feed strict_env true (Status 200 [markup_item; item_a]) fresh
     = (Raise ParserRejectedMarkup, tick fresh).
Proof.
  split; [|reflexivity]. unfold parses. vm_compute. discriminate.
Qed.

(* ================================================================== *)
(** * Normal operation *)
(* ================================================================== *)

Lemma new_items_cons w it its :
  new_items w (it :: its)
  = match live_link it with
    | Some l => if has_link l (posts w) then new_items w its
                else it :: new_items w its
    | None => new_items w its
    end.
Proof.
  unfold new_items. simpl. destruct (live_link it) as [l|]; [|reflexivity].
  destruct (has_link l (posts w)); reflexivity.
Qed.

(** A new row leaves the candidates as they are when none of them has its
    link. *)
Lemma new_items_other w w' l d its :
  posts w' = posts w ++ [{| row_link := l; published_date := d |}] ->
  ~ In l (map link_or_empty (new_items w its)) ->
  new_items w' its = new_items w its.
Proof.
  intros Hp. induction its as [|it its IH]; [reflexivity|].
  rewrite !new_items_cons. destruct (live_link it) as [l'|] eqn:El; [|exact IH].
  rewrite Hp, has_link_last.
  destruct (has_link l' (posts w)); simpl; [exact IH|].
  intros Hn. unfold link_or_empty at 1 in Hn. rewrite El in Hn.
  destruct (pystr_eqb l' l) eqn:E.
  - apply pystr_eqb_eq in E. exfalso. apply Hn. now left.
  - f_equal. apply IH. intros H. apply Hn. now right.
Qed.

Lemma subseq_refl {A} (l : list A) : subseq l l.
Proof. induction l; [apply subseq_nil|now apply subseq_take]. Qed.

Lemma subseq_trans {A} (a b c : list A) :
  subseq a b -> subseq b c -> subseq a c.
Proof.
  intros Hab Hbc. revert a Hab.
  induction Hbc as [|x s t Hbc IH|x s t Hbc IH]; intros a Hab.
  - exact Hab.
  - apply subseq_skip. now apply IH.
  - inversion Hab; subst;
      [apply subseq_skip|apply subseq_take]; now apply IH.
Qed.

Lemma subseq_filter {A} (p q : A -> bool) l :
  (forall x, p x = true -> q x = true) ->
  subseq (filter p l) (filter q l).
Proof.
  intros H. induction l as [|x l IH]; simpl; [apply subseq_nil|].
  destruct (p x) eqn:Ep.
  - rewrite (H x Ep). now apply subseq_take.
  - destruct (q x); [now apply subseq_skip|exact IH].
Qed.

(** New rows can only take candidates away. *)
Lemma new_items_shrink w w' rows its :
  posts w' = posts w ++ rows ->
  subseq (new_items w' its) (new_items w its).
Proof.
  intros Hp. apply subseq_filter. intros it.
  destruct (live_link it) as [l|]; [|auto].
  rewrite Hp, has_link_app. destruct (has_link l (posts w)); auto.
Qed.

Section Steady.

Variable env : Env.

Lemma process_feed_steady items w :
  process_feed env false (Status 200 items) w = steady env items w.
Proof. destruct items; reflexivity. Qed.

Lemma subseq_nil_l {A} (l : list A) : subseq [] l.
Proof. induction l; [apply subseq_nil|now apply subseq_skip]. Qed.

(** One step of the loop, whatever the environment does.  Either it makes
    no call and leaves the table as it is, and then it returns only when
    its item has no link or a recorded one; or it makes one call, for its
    item, whose link had no record, returns, and adds no row or the row of
    that link. *)
Lemma steady_step_outcome it w :
  (calls (snd (steady_step env it w)) = calls w
   /\ posts (snd (steady_step env it w)) = posts w
   /\ (fst (steady_step env it w) = Ret tt ->
       forall l, live_link it = Some l -> has_link l (posts w) = true))
  \/ exists l,
       live_link it = Some l /\ has_link l (posts w) = false
       /\ fst (steady_step env it w) = Ret tt
       /\ calls (snd (steady_step env it w))
          = calls w ++ [delivery env it l w]
       /\ (posts (snd (steady_step env it w)) = posts w
           \/ exists d,
                posts (snd (steady_step env it w))
                = posts w ++ [{| row_link := l; published_date := d |}]).
Proof.
  unfold steady_step. destruct (live_link it) as [l|] eqn:El;
    [|left; repeat split; discriminate].
  unfold bind at 1, post_exists, bind, connect.
  destruct (db_up env (db_ops w)); simpl;
    [|left; repeat split; discriminate].
  destruct (has_link l (posts w)) eqn:Hl; simpl.
  { left. repeat split. intros _ l' E. congruence. }
  rewrite (send_item_split env it l _ El).
  destruct (clean_html env (item_content_html it)) as [t|e] eqn:Ht;
    [|left; repeat split; discriminate].
  apply clean_html_text in Ht. subst t. fold (item_message env it l).
  unfold bind at 1, item_image_url.
  destruct (enclosure it) as [[u|]|] eqn:He; simpl;
    [|left; repeat split; discriminate|].
  all: right; exists l; split; [reflexivity|]; split; [exact Hl|].
  all: rewrite bind_ret, try_bind;
    unfold bot_call, delivery, item_call, image_url_of;
    rewrite He; simpl;
    match goal with
    | |- context [sink_accepts env ?n ?c] => destruct (sink_accepts env n c)
    end.
  all: try (repeat split; left; reflexivity).
  all: unfold try_except, bind, add_post, bind, connect; simpl.
  all: destruct (db_up env (S (db_ops w))); simpl.
  all: try (repeat split; left; reflexivity).
  all: rewrite Hl; simpl; repeat split; right; eexists; reflexivity.
Qed.

(** The loop calls Telegram for items picked among the candidates, in the
    order of the loop, whatever the environment does; when it returns it
    has picked them all, provided their links are distinct. *)
Lemma steady_loop_calls its :
  forall w,
    exists ds picked,
      calls (snd (for_each its (steady_step env) w)) = calls w ++ ds
      /\ subseq picked (new_items w its)
      /\ map d_link ds = map link_or_empty picked
      /\ map d_call ds
         = map (fun it => item_call env it (link_or_empty it)) picked
      /\ (fst (for_each its (steady_step env) w) = Ret tt ->
          NoDup (map link_or_empty (new_items w its)) ->
          picked = new_items w its).
Proof.
  induction its as [|it its IH]; intros w.
  - exists [], []. rewrite app_nil_r. repeat split. apply subseq_nil.
  - change (for_each (it :: its) (steady_step env) w)
      with (bind (steady_step env it) (fun _ => for_each its (steady_step env))
              w).
    unfold bind.
    destruct (steady_step_outcome it w)
      as [(C1 & P1 & R1)|(l & El & Hl & R1 & C1 & P1)];
      destruct (steady_step env it w) as [[[]|e] w1]; cbn [fst snd] in *;
      try discriminate.
    + assert (Hn : new_items w (it :: its) = new_items w1 its).
      { rewrite new_items_cons. unfold new_items. rewrite P1.
        destruct (live_link it) as [l|] eqn:El; [|reflexivity].
        now rewrite (R1 eq_refl l eq_refl). }
      rewrite Hn.
      destruct (IH w1) as (ds & pk & C & S & L & K & N).
      exists ds, pk. rewrite C, C1. repeat split; assumption.
    + exists [], []. rewrite app_nil_r.
      split; [exact C1|]. split; [apply subseq_nil_l|].
      repeat split. discriminate.
    + rewrite new_items_cons, El, Hl.
      destruct (IH w1) as (ds & pk & C & S & L & K & N).
      exists (delivery env it l w :: ds), (it :: pk).
      split; [rewrite C, C1, <- app_assoc; reflexivity|].
      split; [|split; [|split]].
      * apply subseq_take. eapply subseq_trans; [exact S|].
        destruct P1 as [P1|[d P1]].
        -- apply (new_items_shrink w w1 []). now rewrite app_nil_r.
        -- now apply (new_items_shrink w w1 _ its P1).
      * simpl. rewrite L. unfold link_or_empty at 2. now rewrite El.
      * simpl. rewrite K. unfold link_or_empty at 2. now rewrite El.
      * simpl. intros Hret Hnd. apply NoDup_cons_iff in Hnd as [Hn Hnd].
        replace (link_or_empty it) with l in Hn
          by (unfold link_or_empty; now rewrite El).
        assert (Hni : new_items w1 its = new_items w its).
        { destruct P1 as [P1|[d P1]].
          - unfold new_items. now rewrite P1.
          - eapply new_items_other; [exact P1|exact Hn]. }
        rewrite <- Hni in *. now rewrite (N Hret Hnd).
Qed.

End Steady.

(** C3.  Whatever the feed server, Telegram and the database do, a poll
    cycle after the first goes through the feed from its last item to its
    first: its calls are made for items picked among those whose link had
    no record, one call for each, in the order in which these stand in the
    reversed feed, so the new items that are delivered are delivered
    oldest first.  When the cycle ends without an exception and the new
    links are distinct, every new item was picked; and the cycle does end
    without an exception while the database is available, the parser
    accepts every content and every enclosure has its url. *)
Theorem steady_ordering env items w :
  let r := process_feed env false (Status 200 items) w in
  (exists ds picked,
     calls (snd r) = calls w ++ ds
     /\ subseq picked (rev (new_items w items))
     /\ map d_link ds = map link_or_empty picked
     /\ map d_call ds
        = map (fun it => item_call env it (link_or_empty it)) picked
     /\ (fst r = Ret tt ->
         NoDup (map link_or_empty (new_items w items)) ->
         picked = rev (new_items w items)))
  /\ (available env -> Forall well_formed items ->
      Forall (parses env) items -> fst r = Ret tt).
Proof.
  intros r. subst r. rewrite process_feed_steady. unfold steady. split.
  - destruct (steady_loop_calls env (rev items) w)
      as (ds & pk & C & S & L & K & N).
    exists ds, pk. unfold new_items in *. rewrite filter_rev in S, N.
    repeat split; auto.
    intros Hret Hnd. apply N; [exact Hret|].
    rewrite map_rev. now apply NoDup_rev.
  - intros Hup Hwf Hp.
    apply (steady_loop_returns env Hup).
    apply Forall_rev. now apply Forall_sendable.
Qed.

Lemma steady_ordering_witness :
  map d_link
    (calls (snd (process_feed shy_env false
                   (Status 200 [item_c; item_b; item_a]) fresh)))
  = [lit "https://e.org/a"; lit "https://e.org/b"; lit "https://e.org/c"].
Proof.
  destruct (steady_ordering shy_env [item_c; item_b; item_a] fresh)
    as ((ds & pk & C & _ & L & _ & N) & _).
  rewrite C. change (calls fresh ++ ds) with ds. rewrite L, N.
  - reflexivity.
  - reflexivity.
  - vm_compute. repeat constructor; simpl; intuition discriminate.
Defined.

(* ================================================================== *)
(** * Rejected calls and repeated polls *)
(* ================================================================== *)

Section Retry.

Variable env : Env.
Hypothesis Hup : available env.

(** A step that returns adds [step_calls], keeps the records, records no
    other link, and leaves the item's link recorded unless its call was
    rejected. *)
Lemma steady_step_total it w :
  fst (steady_step env it w) = Ret tt ->
  exists w1,
    steady_step env it w = (Ret tt, w1)
    /\ calls w1 = calls w ++ step_calls env it w
    /\ (forall l0, has_link l0 (posts w) = true ->
                   has_link l0 (posts w1) = true)
    /\ (forall l0, has_link l0 (posts w) = false -> live_link it <> Some l0 ->
                   has_link l0 (posts w1) = false)
    /\ (forall l, live_link it = Some l ->
                  has_link l (posts w1) = true
                  \/ exists d, In d (step_calls env it w)
                               /\ d_link d = l /\ d_ok d = false).
Proof.
  intros Hret. unfold step_calls.
  destruct (live_link it) as [l|] eqn:El.
  - destruct (has_link l (posts w)) eqn:Hl.
    + exists (tick w). rewrite (steady_step_seen env Hup it l w El Hl).
      simpl. rewrite app_nil_r. repeat split; auto.
      intros l' E. injection E as <-. now left.
    + destruct (sendable_or_raises env Hup it) as [Hwf|[e He]];
        [|rewrite (He l w El Hl) in Hret; discriminate].
      rewrite (steady_step_new env Hup it l w El Hwf Hl).
      destruct (sink_accepts env (length (calls w)) (item_call env it l))
        eqn:Ok.
      * exists (sent_ok env it l w). simpl. repeat split.
        -- intros l0 H. now rewrite has_link_app, H.
        -- intros l0 H N. rewrite has_link_last, H. simpl.
           apply pystr_eqb_neq. congruence.
        -- intros l' E. injection E as <-. left.
           rewrite has_link_last, pystr_eqb_refl. apply orb_true_r.
      * exists (sent_rejected env it l w). simpl. repeat split; auto.
        intros l' E. injection E as <-. right.
        exists (delivery env it l w). split; [now left|].
        split; [reflexivity|exact Ok].
  - exists w. rewrite (steady_step_unlinked env it w El).
    rewrite app_nil_r. repeat split; auto. discriminate.
Qed.

(** After a loop that has returned, every linked item is recorded or had
    its call rejected. *)
Lemma steady_loop_total its :
  forall w,
    fst (for_each its (steady_step env) w) = Ret tt ->
    exists w' ds,
      for_each its (steady_step env) w = (Ret tt, w')
      /\ calls w' = calls w ++ ds
      /\ (forall l0, has_link l0 (posts w) = true ->
                     has_link l0 (posts w') = true)
      /\ (forall it l, In it its -> live_link it = Some l ->
                       has_link l (posts w') = true
                       \/ exists d, In d ds /\ d_link d = l /\ d_ok d = false).
Proof.
  induction its as [|x its IH]; intros w Hret.
  - exists w, []. rewrite app_nil_r. repeat split; auto.
  - apply for_each_returned in Hret as [Hx Hret].
    destruct (steady_step_total x w Hx) as (w1 & E1 & C1 & P1 & _ & O1).
    rewrite E1 in Hret. simpl in Hret.
    destruct (IH w1 Hret) as (w' & ds & E & C & P & O).
    exists w', (step_calls env x w ++ ds). simpl. unfold bind. rewrite E1.
    split; [exact E|]. split; [rewrite C, C1; symmetry; apply app_assoc|].
    split; [auto|].
    intros it l [<-|Hin] El.
    + destruct (O1 l El) as [H|(d & Hd & Hl & Hk)]; [left; auto|].
      right. exists d. split; [apply in_or_app; now left|auto].
    + destruct (O it l Hin El) as [H|(d & Hd & Hl & Hk)]; [now left|].
      right. exists d. split; [apply in_or_app; now right|auto].
Qed.


(** The loop over items that are all recorded returns and changes neither
    table, calls nor log. *)
Lemma steady_loop_recorded its :
  forall w,
    all_recorded its w ->
    exists w',
      for_each its (steady_step env) w = (Ret tt, w')
      /\ posts w' = posts w /\ calls w' = calls w /\ log w' = log w.
Proof.
  induction its as [|x its IH]; intros w Hr.
  - exists w. repeat split.
  - assert (Hr' : forall w1, posts w1 = posts w -> all_recorded its w1).
    { intros w1 Hp it l Hin El. rewrite Hp. apply (Hr it l); [now right|auto]. }
    simpl. unfold bind. destruct (live_link x) as [l|] eqn:El.
    + rewrite (steady_step_seen env Hup x l w El (Hr x l (or_introl eq_refl) El)).
      destruct (IH (tick w) (Hr' (tick w) eq_refl)) as (w' & E & P & C & L).
      exists w'. repeat split; assumption.
    + rewrite (steady_step_unlinked env x w El).
      destruct (IH w (Hr' w eq_refl)) as (w' & E & P & C & L).
      exists w'. repeat split; assumption.
Qed.

Lemma all_recorded_rev items w :
  all_recorded items w -> all_recorded (rev items) w.
Proof. intros H it l Hin. apply (H it l). now apply in_rev. Qed.

(** A poll of normal operation on a feed whose linked items are all
    recorded calls nobody and records nothing. *)
Lemma repoll_when_recorded r w :
  all_recorded (feed_items r) w ->
  fst (process_feed env false r w) = Ret tt
  /\ calls (snd (process_feed env false r w)) = calls w
  /\ posts (snd (process_feed env false r w)) = posts w.
Proof.
  intros Hr. destruct r as [code items|]; [|repeat split].
  unfold feed_items in Hr. destruct (Z.eqb code 200) eqn:Ec.
  - apply Z.eqb_eq in Ec. subst code. rewrite process_feed_steady.
    destruct (steady_loop_recorded (rev items) w (all_recorded_rev _ _ Hr))
      as (w' & E & P & C & _).
    unfold steady. rewrite E. auto.
  - unfold process_feed, fetch_rss. rewrite Ec. repeat split.
Qed.

(** After a first run that has returned, every linked item of the feed is
    recorded. *)
Lemma first_run_records r w :
  fst (process_feed env true r w) = Ret tt ->
  all_recorded (feed_items r) (snd (process_feed env true r w)).
Proof.
  intros Hret. destruct r as [code items|]; [|intros it l []].
  unfold feed_items in *. destruct (Z.eqb code 200) eqn:Ec; [|intros it l []].
  apply Z.eqb_eq in Ec. subst code.
  destruct items as [|I0 rest]; [intros it l []|].
  rewrite process_feed_200, bootstrap_cons in *. unfold bind in *.
  destruct (steady_step env I0 w) as [[[]|e] w1]; [|discriminate].
  destruct (mark_all env Hup (I0 :: rest) w1) as (w' & E' & _ & _ & _ & R').
  rewrite E'. exact R'.
Qed.

End Retry.



(** C4 at its failing input.  The database is available and Telegram
    rejects the second call it receives.  The first poll delivers [a]; in
    the second poll [b] has appeared, its call is rejected and logged, and
    no record is written.  In the third and fourth feed [b] still stands,
    with an item behind it whose [enclosure] tag has no [url].  The third
    poll reaches that item before [b]; [send_item] raises the key error
    before its [try], the error leaves the loop, [process_feed] and the
    scheduler: the cycle is aborted, the fourth poll never starts, and [b]
    is not delivered again although it is still in the feed. *)
Theorem retry_lost_to_key_error :
  let polls :=
    [Status 200 [item_a]; Status 200 [item_b; item_a];
     Status 200 [item_b; bare_enclosure_item; item_a];
     Status 200 [item_b; bare_enclosure_item; item_a]] in
  let r := scheduler flaky_env polls fresh in
  fst r = Raise KeyError
  /\ map (fun d => (d_link d, d_ok d)) (calls (snd r))
     = [(lit "https://e.org/a", true); (lit "https://e.org/b", false)]
  /\ keys (snd r) = [lit "https://e.org/a"]
  /\ log (snd r)
     = [InfoChecking; InfoPosted (lit "First");
        InfoChecking; ErrorSending (lit "https://e.org/b") TelegramError;
        InfoChecking].
Proof. vm_compute. repeat split; reflexivity. Qed.

(** C7, as amended.  While the database is available: a poll cycle of
    normal operation on the same answer of the feed server as the cycle
    before it, which has ended without an exception (as it must have for
    the scheduler to poll again, and as it does when the parser accepts
    every content and every enclosure has its url), makes no call and
    writes no record, when the cycle before was the first run, or a cycle
    of normal operation in which Telegram accepted every call. *)
Theorem idempotent_repoll env b r w ds :
  available env -> fst (process_feed env b r w) = Ret tt ->
  let w1 := snd (process_feed env b r w) in
  calls w1 = calls w ++ ds ->
  (b = true \/ forall d, In d ds -> d_ok d = true) ->
  fst (process_feed env false r w1) = Ret tt
  /\ calls (snd (process_feed env false r w1)) = calls w1
  /\ posts (snd (process_feed env false r w1)) = posts w1.
Proof.
  intros Hup Hwf w1 Hc Hok. apply (repoll_when_recorded env Hup).
  destruct b; [apply (first_run_records env Hup); exact Hwf|].
  destruct Hok as [Hb|Hok]; [discriminate|].
  subst w1. destruct r as [code items|]; [|intros it l []].
  unfold feed_items in *. destruct (Z.eqb code 200) eqn:Ec; [|intros it l []].
  apply Z.eqb_eq in Ec. subst code.
  rewrite process_feed_steady in *. unfold steady in *.
  destruct (steady_loop_total env Hup (rev items) w Hwf)
    as (w' & ds' & E & C & _ & O).
  rewrite E in *. simpl in *. rewrite C in Hc. apply app_inv_head in Hc.
  subst ds'. intros it l Hin El.
  destruct (O it l (proj1 (in_rev _ _) Hin) El) as [H|(d & Hd & _ & Hk)];
    [exact H|].
  rewrite (Hok d Hd) in Hk. discriminate.
Qed.

Lemma idempotent_repoll_witness :
  calls (snd (process_feed plain_env false (Status 200 [item_b; item_a])
                (snd (process_feed plain_env false
                        (Status 200 [item_b; item_a]) fresh))))
  = calls (snd (process_feed plain_env false (Status 200 [item_b; item_a])
                  fresh)).
Proof.
  apply (idempotent_repoll plain_env false (Status 200 [item_b; item_a]) fresh
           (calls (snd (process_feed plain_env false
                          (Status 200 [item_b; item_a]) fresh)))).
  - intros n. reflexivity.
  - reflexivity.
  - reflexivity.
  - right. vm_compute. intros d [<-|[<-|[]]]; reflexivity.
Defined.

(** C7 as stated fails: Telegram rejects the call for [b] in one cycle of
    normal operation; the same feed polled again gives a new call and a
    new record. *)
Lemma repoll_after_rejection_delivers :
  let w1 := snd (process_feed shy_env false (Status 200 [item_b]) fresh) in
  let w2 := snd (process_feed shy_env false (Status 200 [item_b]) w1) in
  map d_ok (calls w1) = [false] /\ keys w1 = []
  /\ map d_ok (calls w2) = [false; true]
  /\ keys w2 = [lit "https://e.org/b"]
  /\ calls w2 <> calls w1 /\ posts w2 <> posts w1.
Proof.
  vm_compute. repeat split; discriminate.
Qed.



(** C9 at its failing input.  The table is empty and the feed holds item
    [b] alone.  Telegram rejects the call that the first run makes for
    [b], and [send_item] logs the error.  The database is away for the
    next connection, the [post_exists] of the marking loop, which nothing
    guards: the operational error ends the cycle and the scheduler, and
    [b] has no record.  When the process is started again it calls
    Telegram for [b] a second time. *)
Theorem rejected_first_run_item_is_retried :
  let w1 := run_process shy_outage_env [Status 200 [item_b]] fresh in
  let w2 := run_process shy_outage_env [Status 200 [item_b]] w1 in
  map (db_up shy_outage_env) [0; 1; 2; 3; 4; 5; 6]
  = [true; true; false; true; true; true; true]
  /\ fst (scheduler shy_outage_env [Status 200 [item_b]] fresh)
     = Raise OperationalError
  /\ log w1
     = [InfoChecking; ErrorSending (lit "https://e.org/b") TelegramError]
  /\ map d_ok (calls_for (lit "https://e.org/b") w1) = [false]
  /\ has_link (lit "https://e.org/b") (posts w1) = false
  /\ map d_ok (calls_for (lit "https://e.org/b") w2) = [false; true].
Proof. vm_compute. repeat split; reflexivity. Qed.

(* ================================================================== *)
(** * Errors of the database *)
(* ================================================================== *)

(** X11.  Whatever Telegram and the database do, [send_item] lets no error
    of theirs out.  It returns; or it raises before its [try], with
    nothing called, recorded or logged: the parser's exception, when
    [clean_html] meets markup that the parser rejects, or the [KeyError]
    of an enclosure without url. *)
Lemma send_item_catches env it w :
  fst (send_item env it w) = Ret tt
  \/ (send_item env it w = (Raise ParserRejectedMarkup, w)
      /\ ~ parses env it)
  \/ (send_item env it w = (Raise KeyError, w)
      /\ parses env it /\ ~ well_formed it).
Proof.
  destruct (live_link it) as [l|] eqn:El;
    [|left; unfold send_item; now rewrite El].
  rewrite (send_item_split env it l w El).
  destruct (clean_html env (item_content_html it)) as [t|e] eqn:Ht.
  2:{ right; left. rewrite (clean_html_raises _ _ _ Ht). split; [reflexivity|].
      unfold parses. rewrite Ht. discriminate. }
  pose proof (clean_html_returns env it t Ht) as Hp.
  unfold bind at 1, item_image_url.
  destruct (enclosure it) as [[u|]|] eqn:He; simpl; [left| |left].
  2:{ right; right. split; [reflexivity|]. split; [exact Hp|].
      unfold well_formed. now rewrite He. }
  all: unfold try_except;
    match goal with
    | |- context [bind ?m ?k ?w0] => destruct (bind m k w0) as [[[]|e] w1]
    end; reflexivity.
Qed.

(** X12.  A database error met while [send_item] records an item that Telegram
    has accepted (so the parser has accepted its content and its
    enclosure, when it has one, has its url) is not fatal.  When the link is already present the insert
    raises an integrity error and changes no row; when the database is away
    the insert raises an operational error; in both cases [send_item]
    returns normally with the error in the log and no new row, and a cycle
    of normal operation whose insert fails that way goes on with its
    remaining items. *)
Lemma store_error_while_recording env it l w :
  live_link it = Some l -> well_formed it -> parses env it ->
  sink_accepts env (length (calls w)) (item_call env it l) = true ->
  (db_up env (db_ops w) = true -> has_link l (posts w) = true ->
   add_post env l w = (Raise IntegrityError, tick w)
   /\ send_item env it w
      = (Ret tt, sent_unrecorded env it l IntegrityError w))
  /\ (db_up env (db_ops w) = false ->
      add_post env l w = (Raise OperationalError, tick w)
      /\ send_item env it w
         = (Ret tt, sent_unrecorded env it l OperationalError w))
  /\ (db_up env (db_ops w) = true -> has_link l (posts w) = false ->
      db_up env (S (db_ops w)) = false ->
      forall rest,
        for_each (it :: rest) (steady_step env) w
        = for_each rest (steady_step env)
            (sent_unrecorded env it l OperationalError (tick w))).
Proof.
  intros El Hwf Hp Hok.
  assert (Hsend : forall w0 e,
             length (calls w0) = length (calls w) ->
             add_post env l w0 = (Raise e, tick w0) ->
             send_item env it w0 = (Ret tt, sent_unrecorded env it l e w0)).
  { intros w0 e Hlen Hadd. rewrite (send_item_split env it l w0 El), Hp.
    unfold bind at 1. rewrite (item_image_url_wf it w0 Hwf).
    fold (item_message env it l).
    rewrite try_bind. unfold bot_call. fold (item_call env it l).
    rewrite Hlen, Hok. unfold try_except, bind at 1.
    assert (Hadd' : forall cs lg,
               add_post env l
                 {| posts := posts w0; calls := cs; log := lg;
                    db_ops := db_ops w0; slept := slept w0 |}
               = (Raise e,
                  {| posts := posts w0; calls := cs; log := lg;
                     db_ops := S (db_ops w0); slept := slept w0 |})).
    { intros cs lg. revert Hadd. unfold add_post, bind, connect, tick. simpl.
      destruct (db_up env (db_ops w0)); simpl.
      - destruct (has_link l (posts w0)); [|discriminate].
        intros H. injection H as <-. reflexivity.
      - intros H. injection H as <-. reflexivity. }
    rewrite Hadd'. unfold sent_unrecorded, delivery, logging. simpl.
    now rewrite Hlen, Hok. }
  assert (Hdup : db_up env (db_ops w) = true -> has_link l (posts w) = true ->
                 add_post env l w = (Raise IntegrityError, tick w)).
  { intros Hup Hl. unfold add_post, bind, connect. rewrite Hup. simpl.
    now rewrite Hl. }
  assert (Hdown : forall w0, db_up env (db_ops w0) = false ->
                  add_post env l w0 = (Raise OperationalError, tick w0)).
  { intros w0 Hd. unfold add_post, bind, connect. now rewrite Hd. }
  split; [|split].
  - intros Hup Hl. split; [auto|]. apply Hsend; auto.
  - intros Hd. split; [auto|]. apply Hsend; auto.
  - intros Hup Hl Hd rest. simpl. unfold bind at 1.
    unfold steady_step. rewrite El. unfold bind at 1.
    unfold post_exists, bind at 1, connect. rewrite Hup. simpl.
    rewrite Hl. fold (tick w).
    rewrite (Hsend (tick w) OperationalError eq_refl (Hdown (tick w) Hd)).
    reflexivity.
Qed.

Lemma late_outage_is_logged :
  for_each [item_a; item_b] (steady_step late_outage_env)
    {| posts := []; calls := []; log := []; db_ops := 1; slept := 0 |}
  = for_each [item_b] (steady_step late_outage_env)
      (sent_unrecorded late_outage_env item_a (lit "https://e.org/a")
         OperationalError
         (tick {| posts := []; calls := []; log := [];
                  db_ops := 1; slept := 0 |})).
Proof. reflexivity. Qed.

(** Outside [send_item] nothing catches a database error: it leaves the
    loop bodies, the poll cycle and the scheduler loop, whose remaining
    iterations never run. *)
Lemma outage_leaves_loop_bodies env it l w :
  live_link it = Some l -> db_up env (db_ops w) = false ->
  steady_step env it w = (Raise OperationalError, tick w)
  /\ mark_seen env it w = (Raise OperationalError, tick w).
Proof.
  intros El Hd.
  unfold steady_step, mark_seen, bind, post_exists, bind, connect.
  now rewrite El, Hd.
Qed.

Lemma raise_ends_scheduler_loop env b r rs w e w' :
  process_feed env b r (snd (logging InfoChecking w)) = (Raise e, w') ->
  scheduler_loop env b (r :: rs) w = (Raise e, w').
Proof.
  intros H. simpl. unfold bind at 1. simpl. unfold bind at 1.
  simpl in H. now rewrite H.
Qed.

(** C5 at its failing input.  The database is away for one connection, the
    first [post_exists] of the first poll.  The operational error is not
    logged; it leaves [process_feed] and [scheduler], and the second poll,
    for which the database is back, never starts: one line
    [Checking feed...] for two answers of the feed server, no call, no
    record. *)
Theorem outage_ends_scheduler :
  map (db_up outage_env) [0; 1; 2; 3] = [true; false; true; true]
  /\ scheduler outage_env [Status 200 [item_a]; Status 200 [item_a]] fresh
     = (Raise OperationalError,
        {| posts := []; calls := []; log := [InfoChecking];
           db_ops := 2; slept := 0 |}).
Proof.
  split; [reflexivity|]. vm_compute. reflexivity.
Qed.

(* ================================================================== *)
(** * A run from start to end *)
(* ================================================================== *)

(** The feed holds [a] at the first poll and is unchanged at the second;
    at the third, [b] has appeared in front of [a].  One call and one
    record for [a] in the first poll, nothing in the second, one call and
    one record for [b] in the third. *)
Lemma settled_polls_run :
  fst (scheduler plain_env settled_polls fresh) = Ret tt
  /\ map d_link (calls (run_process plain_env settled_polls fresh))
     = [lit "https://e.org/a"; lit "https://e.org/b"]
  /\ keys (run_process plain_env settled_polls fresh)
     = [lit "https://e.org/a"; lit "https://e.org/b"]
  /\ log (run_process plain_env settled_polls fresh)
     = [InfoChecking; InfoPosted (lit "First"); InfoChecking; InfoChecking;
        InfoPosted (lit "Second")]
  /\ slept (run_process plain_env settled_polls fresh) = 3 + 300 + 300 + 3 + 300.
Proof. vm_compute. repeat split. Qed.

(* ================================================================== *)
(** * [strip] *)
(* ================================================================== *)

Lemma lstrip_blank s : blank s = true -> lstrip s = [].
Proof.
  induction s as [|c s IH]; [reflexivity|]. simpl.
  intros H. apply andb_prop in H as [Hc Hs]. rewrite Hc. auto.
Qed.

Lemma lstrip_nil_blank s : lstrip s = [] -> blank s = true.
Proof.
  induction s as [|c s IH]; [reflexivity|]. simpl.
  destruct (py_isspace c); [auto|discriminate].
Qed.

Lemma blank_rev s : blank (rev s) = blank s.
Proof.
  unfold blank. induction s as [|c s IH]; [reflexivity|]. simpl.
  rewrite forallb_app, IH. simpl. rewrite andb_true_r. apply andb_comm.
Qed.

Lemma lstrip_head s c : hd_error (lstrip s) = Some c -> py_isspace c = false.
Proof.
  induction s as [|x s IH]; simpl; [discriminate|].
  destruct (py_isspace x) eqn:E; [exact IH|].
  simpl. intros H. injection H as <-. exact E.
Qed.

Lemma lstrip_fixed s :
  (forall c, hd_error s = Some c -> py_isspace c = false) -> lstrip s = s.
Proof.
  destruct s as [|x s]; [reflexivity|]. simpl. intros H.
  now rewrite (H x eq_refl).
Qed.

Lemma lstrip_idem s : lstrip (lstrip s) = lstrip s.
Proof. apply lstrip_fixed. apply lstrip_head. Qed.

(** White space before a character that is none goes, the character
    stays. *)
Lemma lstrip_snoc x c :
  py_isspace c = false -> lstrip (x ++ [c]) = lstrip x ++ [c].
Proof.
  intros Hc. induction x as [|a x IH]; simpl; [now rewrite Hc|].
  destruct (py_isspace a); [exact IH|reflexivity].
Qed.

Lemma rstrip_head s c :
  (forall c0, hd_error s = Some c0 -> py_isspace c0 = false) ->
  hd_error (rstrip s) = Some c -> py_isspace c = false.
Proof.
  destruct s as [|x s]; [discriminate|]. intros Hx.
  unfold rstrip. simpl rev.
  rewrite (lstrip_snoc _ _ (Hx x eq_refl)), rev_app_distr. simpl.
  intros H. injection H as <-. now apply Hx.
Qed.

Lemma strip_trimmed s : trimmed (strip s).
Proof.
  unfold strip. split.
  - intros c. apply rstrip_head. apply lstrip_head.
  - intros c. unfold rstrip. rewrite rev_involutive. apply lstrip_head.
Qed.

Lemma trimmed_strip s : trimmed s -> strip s = s.
Proof.
  intros [Hl Hr]. unfold strip. rewrite (lstrip_fixed _ Hl).
  unfold rstrip. rewrite (lstrip_fixed _ Hr). apply rev_involutive.
Qed.

Lemma strip_idem s : strip (strip s) = strip s.
Proof. apply trimmed_strip, strip_trimmed. Qed.

Lemma strip_nil_blank s : strip s = [] <-> blank s = true.
Proof.
  unfold strip, rstrip. split.
  - intros H. apply (f_equal (@rev N)) in H. rewrite rev_involutive in H.
    simpl in H. apply lstrip_nil_blank in H. rewrite blank_rev in H.
    apply lstrip_nil_blank.
    destruct (lstrip s) as [|c t] eqn:E; [reflexivity|].
    simpl in H. apply andb_prop in H as [Hc _].
    rewrite (lstrip_head s c) in Hc; [discriminate|now rewrite E].
  - intros H. now rewrite (lstrip_blank _ H).
Qed.

(** X2.  [str.strip()].  The result neither starts nor ends with white
    space, stripping it again changes nothing, a text that is trimmed
    already is returned as it is, and the result is empty exactly when the
    text is blank. *)
Theorem strip_spec s :
  trimmed (strip s)
  /\ strip (strip s) = strip s
  /\ (trimmed s -> strip s = s)
  /\ (strip s = [] <-> blank s = true).
Proof.
  split; [apply strip_trimmed|].
  split; [apply strip_idem|].
  split; [apply trimmed_strip|apply strip_nil_blank].
Qed.

Lemma strip_spec_witness :
  strip (lit "  https://e.org/a ") = lit "https://e.org/a"
  /\ strip (lit "https://e.org/a") = lit "https://e.org/a".
Proof.
  split; [reflexivity|].
  apply (strip_spec (lit "https://e.org/a")).
  split; intros c H; injection H as <-; reflexivity.
Defined.

(* ================================================================== *)
(** * Items without a link *)
(* ================================================================== *)

Lemma live_link_none it :
  live_link it = None
  <-> match link_text it with Some t => blank t = true | None => True end.
Proof.
  unfold live_link, item_link, py_true.
  destruct (link_text it) as [t|]; simpl; [|tauto].
  rewrite <- (strip_nil_blank t).
  destruct (strip t); split; congruence.
Qed.

Lemma live_link_clean it l : live_link it = Some l -> clean_link l.
Proof.
  unfold live_link, item_link, py_true.
  destruct (link_text it) as [t|]; simpl; [|discriminate].
  destruct (strip t) as [|c u] eqn:E; [discriminate|].
  intros H. injection H as <-. split; [discriminate|].
  rewrite <- E. apply strip_idem.
Qed.

(** X3.  An item is without a usable link exactly when it has no [link] tag
    or the tag's text is blank; such an item is skipped by [send_item], by
    the loop of normal operation and by the marking loop of the first run
    without a call, a row, a log line or a database connection. *)
Theorem unlinked_item_is_skipped env it w :
  match link_text it with Some t => blank t = true | None => True end ->
  live_link it = None
  /\ send_item env it w = (Ret tt, w)
  /\ steady_step env it w = (Ret tt, w)
  /\ mark_seen env it w = (Ret tt, w)
  /\ process_feed env false (Status 200 [it]) w = (Ret tt, w)
  /\ process_feed env true (Status 200 [it]) w = (Ret tt, w).
Proof.
  intros H. apply live_link_none in H.
  unfold process_feed, fetch_rss, steady, bootstrap, send_item, steady_step,
    mark_seen. simpl. unfold bind. simpl. rewrite H. repeat split.
Qed.

Lemma unlinked_item_is_skipped_witness :
  process_feed plain_env true (Status 200 [blank_link_item]) fresh
  = (Ret tt, fresh).
Proof.
  apply (unlinked_item_is_skipped plain_env blank_link_item fresh).
  reflexivity.
Defined.

(* ================================================================== *)
(** * The table: insert and look-up *)
(* ================================================================== *)

(** X1.  [add_post] then [post_exists].  When the database answers and the
    link is not in the table, [add_post] returns and adds one row; after it
    [post_exists] finds the link, answers for every other link as before,
    the link has exactly one row, and a second [add_post] of the link
    raises an integrity error and leaves the rows as they are. *)
Theorem add_post_then_post_exists env l w :
  db_up env (db_ops w) = true -> db_up env (S (db_ops w)) = true ->
  has_link l (posts w) = false ->
  let w1 := snd (add_post env l w) in
  fst (add_post env l w) = Ret tt
  /\ keys w1 = keys w ++ [l]
  /\ fst (post_exists env l w1) = Ret true
  /\ (forall l', l' <> l ->
        fst (post_exists env l' w1) = fst (post_exists env l' w))
  /\ length (records_for l w1) = 1
  /\ fst (add_post env l w1) = Raise IntegrityError
  /\ posts (snd (add_post env l w1)) = posts w1.
Proof.
  intros U0 U1 Hl w1. subst w1.
  unfold add_post, post_exists, bind, connect, keys, records_for.
  simpl. rewrite U0. simpl. rewrite Hl. simpl. rewrite U1. simpl.
  rewrite has_link_last, pystr_eqb_refl, orb_true_r. simpl.
  split; [reflexivity|]. split; [rewrite map_app; reflexivity|].
  split; [reflexivity|]. split; [|split; [|split; reflexivity]].
  - intros l' Hne. rewrite has_link_last.
    apply pystr_eqb_neq in Hne. now rewrite Hne, orb_false_r.
  - rewrite filter_app. simpl. rewrite pystr_eqb_refl.
    replace (filter (fun r => pystr_eqb l (row_link r)) (posts w))
      with (@nil Row); [reflexivity|].
    symmetry. revert Hl. unfold has_link.
    induction (posts w) as [|r rows IH]; simpl; [reflexivity|].
    intros H. apply orb_false_elim in H as [Hr Hrows].
    rewrite Hr. auto.
Qed.

Lemma add_post_then_post_exists_witness :
  fst (post_exists plain_env (lit "https://e.org/a")
         (snd (add_post plain_env (lit "https://e.org/a") fresh)))
  = Ret true.
Proof.
  apply (add_post_then_post_exists plain_env (lit "https://e.org/a") fresh);
    reflexivity.
Defined.

(* ================================================================== *)
(** * A poll that fetches nothing *)
(* ================================================================== *)

(** X4.  A poll whose fetch fails (a status other than 200, or an exception
    of the transport) or whose feed has no item returns normally in both
    policies and in every environment; it leaves table, calls and counters
    as they are, and the log gets the one error line of the failed fetch,
    nothing for an empty feed. *)
Theorem poll_without_items_changes_nothing env first_run r w :
  feed_items r = [] ->
  process_feed env first_run r w
  = (Ret tt,
     {| posts := posts w; calls := calls w; log := log w ++ fetch_log r;
        db_ops := db_ops w; slept := slept w |}).
Proof.
  intros H. destruct w as [p c lg d s].
  destruct r as [code items|]; simpl in *; [|reflexivity].
  unfold process_feed, fetch_rss, fetch_log.
  destruct (Z.eqb code 200); [|reflexivity].
  subst items. unfold bind. simpl. now rewrite app_nil_r.
Qed.

Lemma poll_without_items_changes_nothing_witness :
  process_feed plain_env true (Status 503 [item_a]) fresh
  = (Ret tt,
     {| posts := []; calls := []; log := [ErrorFetchStatus 503];
        db_ops := 0; slept := 0 |}).
Proof.
  apply (poll_without_items_changes_nothing plain_env true
           (Status 503 [item_a]) fresh).
  reflexivity.
Defined.

(* ================================================================== *)
(** * What a run never undoes *)
(* ================================================================== *)

Lemma extends_refl P Q w : extends P Q w w.
Proof.
  unfold extends. repeat split; try lia.
  all: exists []; rewrite app_nil_r; split; [reflexivity|constructor].
Qed.

Lemma extends_trans P Q a b c :
  extends P Q a b -> extends P Q b c -> extends P Q a c.
Proof.
  intros ((r1 & P1 & F1) & (d1 & C1 & G1) & (e1 & L1 & H1) & D1 & S1)
         ((r2 & P2 & F2) & (d2 & C2 & G2) & (e2 & L2 & H2) & D2 & S2).
  unfold extends. repeat split; try lia.
  - exists (r1 ++ r2). rewrite P2, P1, <- app_assoc. split; [reflexivity|].
    rewrite map_app. apply Forall_app. now split.
  - exists (d1 ++ d2). rewrite C2, C1, <- app_assoc. split; [reflexivity|].
    rewrite map_app. apply Forall_app. now split.
  - exists (e1 ++ e2). rewrite L2, L1, <- app_assoc. split; [reflexivity|].
    apply Forall_app. now split.
Qed.

Section Extends.

Variable env : Env.
Variable P : pystr -> Prop.
Variable Q : LogEntry -> Prop.
Hypothesis P_live : forall it l, live_link it = Some l -> P l.
Hypothesis Q_other : forall e, is_checking e = false -> Q e.

Lemma extends_connect : stepwise (extends P Q) (connect env).
Proof.
  intros w. unfold connect, extends.
  destruct (db_up env (db_ops w)); simpl; repeat split; try lia.
  all: exists []; rewrite app_nil_r; split; [reflexivity|constructor].
Qed.

Lemma extends_logging e : Q e -> stepwise (extends P Q) (logging e).
Proof.
  intros He w. unfold extends. simpl. repeat split; try lia.
  1,2: exists []; rewrite app_nil_r; split; [reflexivity|constructor].
  exists [e]. split; [reflexivity|]. now constructor.
Qed.

Lemma extends_sleep n : stepwise (extends P Q) (asyncio_sleep n).
Proof.
  intros w. unfold extends. simpl. repeat split; try lia.
  all: exists []; rewrite app_nil_r; split; [reflexivity|constructor].
Qed.

Lemma extends_post_exists l : stepwise (extends P Q) (post_exists env l).
Proof.
  unfold post_exists.
  apply stepwise_bind; [apply extends_trans|apply extends_connect|].
  intros _ w. apply extends_refl.
Qed.

Lemma extends_add_post l : P l -> stepwise (extends P Q) (add_post env l).
Proof.
  intros Hl. unfold add_post.
  apply stepwise_bind; [apply extends_trans|apply extends_connect|].
  intros _ w. destruct (has_link l (posts w)); simpl; [apply extends_refl|].
  unfold extends. simpl. repeat split; try lia.
  2,3: exists []; rewrite app_nil_r; split; [reflexivity|constructor].
  eexists. split; [reflexivity|]. simpl. now constructor.
Qed.

Lemma extends_bot_call l c : P l -> stepwise (extends P Q) (bot_call env l c).
Proof.
  intros Hl w. unfold bot_call, extends.
  destruct (sink_accepts env (length (calls w)) c); simpl;
    repeat split; try lia.
  all: try (exists []; rewrite app_nil_r; split; [reflexivity|constructor]).
  all: eexists; (split; [reflexivity|]); simpl; now constructor.
Qed.

Lemma extends_send_item it : stepwise (extends P Q) (send_item env it).
Proof.
  unfold send_item. destruct (live_link it) as [l|] eqn:El;
    [|apply stepwise_ret; apply extends_refl].
  pose proof (P_live it l El) as Hl.
  apply stepwise_bind; [apply extends_trans| |].
  { intros w. apply extends_refl. }
  intros text_content.
  apply stepwise_bind; [apply extends_trans| |].
  { unfold item_image_url. destruct (enclosure it) as [[u|]|];
      intros w; apply extends_refl. }
  intros image_url.
  apply stepwise_try; [apply extends_trans| |].
  - apply stepwise_bind; [apply extends_trans|now apply extends_bot_call|].
    intros _.
    apply stepwise_bind; [apply extends_trans|now apply extends_add_post|].
    intros _.
    apply stepwise_bind; [apply extends_trans| |intros _; apply extends_sleep].
    apply extends_logging. now apply Q_other.
  - intros e. apply extends_logging. now apply Q_other.
Qed.

Lemma extends_steady_step it : stepwise (extends P Q) (steady_step env it).
Proof.
  unfold steady_step. destruct (live_link it) as [l|];
    [|apply stepwise_ret; apply extends_refl].
  apply stepwise_bind; [apply extends_trans|apply extends_post_exists|].
  intros seen. apply stepwise_if;
    [apply stepwise_ret; apply extends_refl|apply extends_send_item].
Qed.

Lemma extends_mark_seen it : stepwise (extends P Q) (mark_seen env it).
Proof.
  unfold mark_seen. destruct (live_link it) as [l|] eqn:El;
    [|apply stepwise_ret; apply extends_refl].
  apply stepwise_bind; [apply extends_trans|apply extends_post_exists|].
  intros seen. apply stepwise_if;
    [apply stepwise_ret; apply extends_refl|].
  apply extends_add_post. now apply (P_live it).
Qed.

Lemma extends_process_feed b r : stepwise (extends P Q) (process_feed env b r).
Proof.
  unfold process_feed.
  apply stepwise_bind; [apply extends_trans| |].
  - destruct r as [code items|]; simpl.
    + destruct (Z.eqb code 200); [apply stepwise_ret; apply extends_refl|].
      apply stepwise_bind; [apply extends_trans| |].
      * apply extends_logging. now apply Q_other.
      * intros _. apply stepwise_ret; apply extends_refl.
    + apply stepwise_bind; [apply extends_trans| |].
      * apply extends_logging. now apply Q_other.
      * intros _. apply stepwise_ret; apply extends_refl.
  - intros [[|it items]|]; try (apply stepwise_ret; apply extends_refl).
    destruct b.
    + rewrite bootstrap_cons.
      apply stepwise_bind; [apply extends_trans|apply extends_steady_step|].
      intros _. apply stepwise_for_each;
        [apply extends_refl|apply extends_trans|apply extends_mark_seen].
    + apply stepwise_for_each;
        [apply extends_refl|apply extends_trans|apply extends_steady_step].
Qed.

End Extends.

Lemma extends_run_processes env P runs w :
  (forall it l, live_link it = Some l -> P l) ->
  extends P (fun _ => True) w (run_processes env runs w).
Proof.
  intros HP. apply lift_run_processes.
  - apply extends_refl.
  - apply extends_trans.
  - apply extends_connect.
  - intros e. now apply extends_logging.
  - apply extends_sleep.
  - intros it. now apply extends_steady_step.
  - intros it. now apply extends_mark_seen.
Qed.

(** X18.  Nothing is ever taken back.  After any number of runs of the
    process in any environment, the table, the calls and the log are what
    they were with rows, calls and lines added at the end: no row is
    deleted or rewritten, and the counters have not gone back. *)
Theorem history_only_grows env runs w :
  let w' := run_processes env runs w in
  (exists rows, posts w' = posts w ++ rows)
  /\ (exists ds, calls w' = calls w ++ ds)
  /\ (exists es, log w' = log w ++ es)
  /\ db_ops w <= db_ops w' /\ slept w <= slept w'.
Proof.
  intros w'.
  destruct (extends_run_processes env (fun _ => True) runs w)
    as ((r & Hr & _) & (d & Hd & _) & (e & He & _) & D & S); [auto|].
  repeat split; eauto.
Qed.

(** X19.  Every link that reaches the table or a call is usable.  When the
    links of the table and of the calls are not empty and have no white
    space around them, this is still so after any number of runs in any
    environment: only links that passed [strip()] and the test [if link]
    are inserted or sent. *)
Theorem links_stay_clean env runs w :
  Forall clean_link (keys w) ->
  Forall clean_link (map d_link (calls w)) ->
  Forall clean_link (keys (run_processes env runs w))
  /\ Forall clean_link (map d_link (calls (run_processes env runs w))).
Proof.
  intros Hk Hc.
  destruct (extends_run_processes env clean_link runs w live_link_clean)
    as ((r & Hr & Fr) & (d & Hd & Fd) & _).
  unfold keys. rewrite Hr, Hd, !map_app. split; apply Forall_app; now split.
Qed.

Lemma links_stay_clean_witness :
  Forall clean_link
    (keys (run_processes flaky_env [three_polls; settled_polls] fresh)).
Proof.
  apply (links_stay_clean flaky_env [three_polls; settled_polls] fresh);
    constructor.
Defined.

(** X17.  A recorded link is never sent.  Once a link has its row, it keeps
    it, and no run of the process in any environment, whatever the feed
    server, Telegram and the database do, makes a call for it. *)
Theorem recorded_link_is_never_called env runs l w :
  has_link l (posts w) = true ->
  has_link l (posts (run_processes env runs w)) = true
  /\ calls_for l (run_processes env runs w) = calls_for l w.
Proof.
  intros H. apply evolves_recorded; [apply evolves_run_processes|exact H].
Qed.

Lemma recorded_link_is_never_called_witness :
  calls_for (lit "https://e.org/a")
    (run_processes flaky_env [three_polls; settled_polls]
       (snd (add_post plain_env (lit "https://e.org/a") fresh)))
  = [].
Proof.
  apply (recorded_link_is_never_called flaky_env [three_polls; settled_polls]
           (lit "https://e.org/a")
           (snd (add_post plain_env (lit "https://e.org/a") fresh))).
  reflexivity.
Defined.

(* ================================================================== *)
(** * The backlog of the first run *)
(* ================================================================== *)

Lemma has_link_mem l w : has_link l (posts w) = mem_link l (keys w).
Proof.
  unfold has_link, mem_link, keys.
  induction (posts w) as [|r rows IH]; [reflexivity|]. simpl. now rewrite IH.
Qed.

Lemma mem_link_app l a b : mem_link l (a ++ b) = mem_link l a || mem_link l b.
Proof. apply existsb_app. Qed.

(** [fresh_links] looks only at which links have been seen. *)
Lemma fresh_links_ext items :
  forall s1 s2,
    (forall x, mem_link x s1 = mem_link x s2) ->
    fresh_links s1 items = fresh_links s2 items.
Proof.
  induction items as [|it items IH]; intros s1 s2 H; [reflexivity|].
  simpl. destruct (live_link it) as [l|]; [|auto].
  rewrite <- (H l). destruct (mem_link l s1); [auto|].
  f_equal. apply IH. intros x. simpl. now rewrite (H x).
Qed.

Lemma fresh_links_snoc s l items :
  fresh_links (s ++ [l]) items = fresh_links (l :: s) items.
Proof.
  apply fresh_links_ext. intros x.
  rewrite mem_link_app. simpl. rewrite orb_false_r. apply orb_comm.
Qed.

Lemma keys_marked env l w : keys (marked env l w) = keys w ++ [l].
Proof. unfold keys. simpl. now rewrite map_app. Qed.

Lemma keys_sent_ok env it l w : keys (sent_ok env it l w) = keys w ++ [l].
Proof. unfold keys. simpl. now rewrite map_app. Qed.

Section Backlog.

Variable env : Env.
Hypothesis Hup : available env.

(** The marking loop inserts the links it has not seen, each once, in the
    order of the feed. *)
Lemma mark_loop_keys items :
  forall w,
    exists w',
      for_each items (mark_seen env) w = (Ret tt, w')
      /\ keys w' = keys w ++ fresh_links (keys w) items.
Proof.
  induction items as [|it items IH]; intros w.
  - exists w. simpl. now rewrite app_nil_r.
  - simpl. unfold bind. destruct (live_link it) as [l|] eqn:El.
    + rewrite <- has_link_mem. destruct (has_link l (posts w)) eqn:Hl.
      * rewrite (mark_seen_seen env Hup it l w El Hl).
        destruct (IH (tick w)) as (w' & E & K). exists w'. auto.
      * rewrite (mark_seen_new env Hup it l w El Hl).
        destruct (IH (marked env l w)) as (w' & E & K). exists w'.
        split; [exact E|]. rewrite K, keys_marked, <- app_assoc. simpl.
        now rewrite fresh_links_snoc.
    + rewrite (mark_seen_unlinked env it w El). apply IH.
Qed.

End Backlog.

(** X13.  What the first run records.  While the database is available, the
    first run on a feed whose newest item gets as far as the [try] of
    [send_item] (the parser accepts its content, and its enclosure, when
    it has one, has its url) adds to the table the links of the feed that
    were not in it, each once, in the order of the feed, whether Telegram
    accepts the newest item or not. *)
Theorem first_run_records_the_feed env I0 rest w :
  available env -> well_formed I0 -> parses env I0 ->
  keys (snd (process_feed env true (Status 200 (I0 :: rest)) w))
  = keys w ++ fresh_links (keys w) (I0 :: rest).
Proof.
  intros Hup Hwf0 Hp0. pose proof (conj Hp0 Hwf0 : sendable env I0) as Hwf.
  rewrite process_feed_200, bootstrap_cons. unfold bind.
  destruct (live_link I0) as [l|] eqn:El.
  - destruct (has_link l (posts w)) eqn:Hl.
    + rewrite (steady_step_seen env Hup I0 l w El Hl).
      destruct (mark_loop_keys env Hup (I0 :: rest) (tick w)) as (w' & E & K).
      now rewrite E.
    + rewrite (steady_step_new env Hup I0 l w El Hwf Hl).
      destruct (sink_accepts env (length (calls w)) (item_call env I0 l)).
      * destruct (mark_loop_keys env Hup (I0 :: rest) (sent_ok env I0 l w))
          as (w' & E & K).
        rewrite E. simpl snd. rewrite K, keys_sent_ok. simpl fresh_links.
        rewrite El, mem_link_app. simpl mem_link.
        rewrite pystr_eqb_refl, orb_true_r.
        rewrite <- has_link_mem, Hl, <- app_assoc. simpl.
        now rewrite fresh_links_snoc.
      * destruct (mark_loop_keys env Hup (I0 :: rest)
                    (sent_rejected env I0 l w)) as (w' & E & K).
        now rewrite E.
  - rewrite (steady_step_unlinked env I0 w El).
    destruct (mark_loop_keys env Hup (I0 :: rest) w) as (w' & E & K).
    now rewrite E.
Qed.

Lemma first_run_records_the_feed_witness :
  keys (snd (process_feed shy_env true
               (Status 200 [item_c; item_b; item_c; item_a]) fresh))
  = [lit "https://e.org/c"; lit "https://e.org/b"; lit "https://e.org/a"].
Proof.
  rewrite (first_run_records_the_feed shy_env item_c
             [item_b; item_c; item_a] fresh).
  - reflexivity.
  - intros n. reflexivity.
  - unfold well_formed. simpl. discriminate.
  - reflexivity.
Defined.

(** X14.  The backlog is never delivered.  While the database is available
    and the newest item of the first feed gets as far as the [try] of
    [send_item] (the parser accepts its content, and its enclosure, when
    it has one, has its url), an item that stands behind the newest one in
    that feed, with a link other than the newest item's, gets no call in
    the first run, and none in any later poll of this or any later run of
    the process. *)
Theorem backlog_is_never_delivered env I0 rest w it l :
  available env -> well_formed I0 -> parses env I0 ->
  In it rest -> live_link it = Some l -> live_link I0 <> Some l ->
  let w1 := snd (process_feed env true (Status 200 (I0 :: rest)) w) in
  calls_for l w1 = calls_for l w
  /\ (forall b rs,
        calls_for l (snd (scheduler_loop env b rs w1)) = calls_for l w)
  /\ (forall runs, calls_for l (run_processes env runs w1) = calls_for l w).
Proof.
  intros Hup Hwf0 Hp0 Hin El Hne w1.
  pose proof (conj Hp0 Hwf0 : sendable env I0) as Hwf.
  assert (Hrec : has_link l (posts w1) = true).
  { subst w1. rewrite process_feed_200, bootstrap_cons.
    destruct (first_step env Hup I0 w Hwf) as (w0 & E0 & _ & _).
    destruct (mark_all env Hup (I0 :: rest) w0) as (w' & E' & _ & _ & _ & R').
    unfold bind. rewrite E0, E'. apply (R' it l); [now right|exact El]. }
  assert (Hsame : calls_for l w1 = calls_for l w).
  { subst w1. unfold calls_for.
    destruct (first_run_calls env I0 rest w) as [H|(l0 & E0 & _ & H)];
      rewrite H; [reflexivity|].
    rewrite filter_app. simpl.
    destruct (pystr_eqb l l0) eqn:E; [|apply app_nil_r].
    apply pystr_eqb_eq in E. congruence. }
  split; [exact Hsame|]. split.
  - intros b rs. rewrite <- Hsame.
    apply (evolves_recorded l w1 _ (evolves_scheduler_loop env b rs w1) Hrec).
  - intros runs. rewrite <- Hsame.
    apply (evolves_recorded l w1 _ (evolves_run_processes env runs w1) Hrec).
Qed.

Lemma backlog_is_never_delivered_witness :
  calls_for (lit "https://e.org/a")
    (run_processes plain_env [three_polls; settled_polls]
       (snd (process_feed plain_env true (Status 200 [item_b; item_a])
               fresh)))
  = [].
Proof.
  apply (backlog_is_never_delivered plain_env item_b [item_a] fresh item_a
           (lit "https://e.org/a")).
  - intros n. reflexivity.
  - unfold well_formed. simpl. discriminate.
  - reflexivity.
  - now left.
  - reflexivity.
  - vm_compute. discriminate.
Defined.

(* ================================================================== *)
(** * Rows, pauses and log lines of normal operation *)
(* ================================================================== *)

Section Accounting.

Variable env : Env.
Hypothesis Hup : available env.

(** What a loop of normal operation has added when it ends, by its last
    item or by an item that raises before its call. *)
Lemma steady_loop_accounting its :
  forall w,
    exists w' ds es,
      snd (for_each its (steady_step env) w) = w'
      /\ calls w' = calls w ++ ds
      /\ keys w' = keys w ++ map d_link (filter d_ok ds)
      /\ slept w' = slept w + 3 * length (filter d_ok ds)
      /\ log w' = log w ++ es
      /\ length es = length ds
      /\ length (filter is_posted es) = length (filter d_ok ds)
      /\ filter is_checking es = [].
Proof.
  induction its as [|it its IH]; intros w.
  - exists w, [], []. simpl. rewrite !app_nil_r. repeat split. lia.
  - simpl. unfold bind.
    destruct (live_link it) as [l|] eqn:El.
    + destruct (has_link l (posts w)) eqn:Hl.
      * rewrite (steady_step_seen env Hup it l w El Hl).
        destruct (IH (tick w)) as (w' & ds & es & E & H).
        exists w', ds, es. split; [exact E|exact H].
      * destruct (sendable_or_raises env Hup it) as [Hit|[e He]].
        2:{ rewrite (He l w El Hl). exists (tick w), [], []. simpl.
            rewrite !app_nil_r. repeat split. lia. }
        rewrite (steady_step_new env Hup it l w El Hit Hl).
        destruct (sink_accepts env (length (calls w)) (item_call env it l))
          eqn:Ok.
        -- destruct (IH (sent_ok env it l w))
             as (w' & ds & es & E & C & K & S & L & N & Np & Nc).
           exists w', (delivery env it l w :: ds),
             (InfoPosted (item_title it) :: es).
           split; [exact E|]. rewrite C, K, S, L, keys_sent_ok.
           simpl. unfold delivery. simpl. rewrite Ok. simpl.
           rewrite <- !app_assoc, N, Np, Nc. repeat split; simpl; try lia.
        -- destruct (IH (sent_rejected env it l w))
             as (w' & ds & es & E & C & K & S & L & N & Np & Nc).
           exists w', (delivery env it l w :: ds),
             (ErrorSending l TelegramError :: es).
           split; [exact E|]. rewrite C, K, S, L.
           simpl. unfold delivery. simpl. rewrite Ok. simpl.
           rewrite <- !app_assoc, N, Np, Nc. repeat split; simpl; try lia.
    + rewrite (steady_step_unlinked env it w El).
      destruct (IH w) as (w' & ds & es & E & H).
      exists w', ds, es. split; [exact E|exact H].
Qed.

Lemma process_feed_returns b r w :
  Forall (sendable env) (feed_items r) ->
  fst (process_feed env b r w) = Ret tt.
Proof.
  intros Hwf. destruct r as [code items|]; [|reflexivity].
  unfold feed_items in Hwf. destruct (Z.eqb code 200) eqn:Ec.
  - apply Z.eqb_eq in Ec. subst code.
    destruct items as [|I0 rest]; [reflexivity|].
    rewrite process_feed_200. destruct b.
    + rewrite bootstrap_cons. unfold bind.
      destruct (first_step env Hup I0 w (Forall_inv Hwf)) as (w1 & E1 & _).
      destruct (mark_all env Hup (I0 :: rest) w1) as (w' & E' & _).
      now rewrite E1, E'.
    + unfold steady. apply (steady_loop_returns env Hup).
      now apply Forall_rev.
  - unfold process_feed, fetch_rss. now rewrite Ec.
Qed.

Lemma scheduler_loop_cons b r rs w :
  scheduler_loop env b (r :: rs) w
  = match process_feed env b r (snd (logging InfoChecking w)) with
    | (Ret _, wb) => scheduler_loop env false rs (snd (asyncio_sleep 300 wb))
    | (Raise e, wb) => (Raise e, wb)
    end.
Proof.
  change (scheduler_loop env b (r :: rs) w)
    with (bind (logging InfoChecking)
            (fun _ => bind (process_feed env b r)
                        (fun _ => bind (asyncio_sleep 300)
                                    (fun _ => scheduler_loop env false rs)))
            w).
  unfold bind, logging, asyncio_sleep. simpl snd.
  destruct (process_feed env b r _) as [[[]|e] wb]; reflexivity.
Qed.

Lemma scheduler_loop_polls rs :
  forall b w,
    Forall (fun r => Forall (sendable env) (feed_items r)) rs ->
    fst (scheduler_loop env b rs w) = Ret tt
    /\ length (filter is_checking (log (snd (scheduler_loop env b rs w))))
       = length (filter is_checking (log w)) + length rs
    /\ slept w + 300 * length rs <= slept (snd (scheduler_loop env b rs w)).
Proof.
  induction rs as [|r rs IH]; intros b w Hwf.
  - simpl. repeat split; lia.
  - apply Forall_cons_iff in Hwf as [Hr Hwf].
    set (wa := snd (logging InfoChecking w)).
    pose proof (process_feed_returns b r wa Hr) as Hret.
    pose proof (extends_process_feed env (fun _ => True)
                  (fun e => is_checking e = false)
                  (fun _ _ _ => I) (fun e H => H) b r wa)
      as (_ & _ & (es & Hl & Hes) & _ & Hs).
    destruct (process_feed env b r wa) as [res wb] eqn:Epf.
    simpl in Hret, Hl, Hs. subst res.
    set (wc := snd (asyncio_sleep 300 wb)).
    destruct (IH false wc Hwf) as (R & C & S).
    assert (Hrun : scheduler_loop env b (r :: rs) w
                   = scheduler_loop env false rs wc).
    { rewrite scheduler_loop_cons. fold wa. now rewrite Epf. }
    rewrite Hrun. split; [exact R|]. split.
    + rewrite C. unfold wc. simpl. rewrite Hl. unfold wa. simpl.
      rewrite !filter_app. simpl. rewrite !length_app. simpl.
      replace (filter is_checking es) with (@nil LogEntry); [simpl; lia|].
      symmetry. clear Hl. induction Hes as [|e es He Hes IHes];
        [reflexivity|]. simpl. now rewrite He.
    + change (slept wc) with (slept wb + 300) in S.
      change (slept wa) with (slept w) in Hs.
      cbn [length]. lia.
Qed.

End Accounting.

(** X15.  Normal operation records what Telegram accepted.  While the
    database is available, a poll of normal operation on a feed of
    well-formed items adds to the table exactly the links of the calls
    that Telegram accepted in this poll, in the order of the calls, and
    none for a rejected call. *)
Theorem steady_records_accepted_calls env items w :
  available env -> Forall well_formed items ->
  let w' := snd (process_feed env false (Status 200 items) w) in
  exists ds,
    calls w' = calls w ++ ds
    /\ keys w' = keys w ++ map d_link (filter d_ok ds).
Proof.
  intros Hup Hwf w'. subst w'. rewrite process_feed_steady. unfold steady.
  destruct (steady_loop_accounting env Hup (rev items) w)
    as (w' & ds & es & E & C & K & _).
  rewrite E. exists ds. auto.
Qed.

Lemma steady_records_accepted_calls_witness :
  keys (snd (process_feed flaky_env false
               (Status 200 [item_c; item_b; item_a]) fresh))
  = [lit "https://e.org/a"; lit "https://e.org/c"].
Proof.
  destruct (steady_records_accepted_calls flaky_env [item_c; item_b; item_a]
              fresh) as (ds & C & K).
  - intros n. reflexivity.
  - repeat constructor; unfold well_formed; simpl; discriminate.
  - rewrite K. change (calls fresh ++ ds) with ds in C. rewrite <- C.
    reflexivity.
Defined.

(** X16.  One log line per call, one pause per delivery.  While the database
    is available, a poll of normal operation on a feed of well-formed
    items writes one log line for every call it makes, a line [Posted] for
    every accepted call, and pauses three seconds for every accepted call:
    never after a skipped item, never after a rejected call. *)
Theorem steady_logs_and_pauses env items w :
  available env -> Forall well_formed items ->
  let w' := snd (process_feed env false (Status 200 items) w) in
  exists ds es,
    calls w' = calls w ++ ds
    /\ log w' = log w ++ es
    /\ length es = length ds
    /\ length (filter is_posted es) = length (filter d_ok ds)
    /\ slept w' = slept w + 3 * length (filter d_ok ds).
Proof.
  intros Hup Hwf w'. subst w'. rewrite process_feed_steady. unfold steady.
  destruct (steady_loop_accounting env Hup (rev items) w)
    as (w' & ds & es & E & C & K & S & L & N & Np & _).
  rewrite E. exists ds, es. auto.
Qed.

Lemma steady_logs_and_pauses_witness :
  slept (snd (process_feed flaky_env false
                (Status 200 [item_c; item_b; item_a]) fresh))
  = 6.
Proof.
  destruct (steady_logs_and_pauses flaky_env [item_c; item_b; item_a] fresh)
    as (ds & es & C & _ & _ & _ & S).
  - intros n. reflexivity.
  - repeat constructor; unfold well_formed; simpl; discriminate.
  - rewrite S. change (calls fresh ++ ds) with ds in C. rewrite <- C.
    reflexivity.
Defined.

(** X20.  The scheduler keeps polling.  While the database is available and
    every item of the feeds gets as far as the [try] of [send_item] (the
    parser accepts its content, and its enclosure, when it has one, has
    its url), the scheduler ends by no exception whatever Telegram and the
    feed server answer: it writes one line [Checking feed...] for every
    answer of the feed server and sleeps at least 300 seconds after each
    poll. *)
Theorem scheduler_keeps_polling env rs w :
  available env ->
  Forall (fun r => Forall well_formed (feed_items r)) rs ->
  Forall (fun r => Forall (parses env) (feed_items r)) rs ->
  fst (scheduler env rs w) = Ret tt
  /\ length (filter is_checking (log (snd (scheduler env rs w))))
     = length (filter is_checking (log w)) + length rs
  /\ slept w + 300 * length rs <= slept (snd (scheduler env rs w)).
Proof.
  intros Hup Hwf Hp. unfold scheduler, init_db, bind.
  rewrite (connect_up env Hup).
  apply (scheduler_loop_polls env Hup rs true (tick w)).
  apply Forall_forall. intros r Hr. rewrite Forall_forall in Hwf, Hp.
  apply Forall_sendable; auto.
Qed.

Lemma scheduler_keeps_polling_witness :
  fst (scheduler flaky_env (Status 503 [] :: ClientError :: three_polls) fresh)
  = Ret tt.
Proof.
  apply (scheduler_keeps_polling flaky_env
           (Status 503 [] :: ClientError :: three_polls) fresh).
  - intros n. reflexivity.
  - unfold three_polls.
    repeat constructor; unfold well_formed; simpl; discriminate.
  - unfold three_polls. repeat constructor.
Defined.

(* ================================================================== *)
(** * [html.escape] *)
(* ================================================================== *)

Lemma escape_char_plain c : is_special c = false -> escape_char c = [c].
Proof.
  unfold is_special, escape_char. intros H.
  repeat (apply orb_false_elim in H as [H ?]).
  now repeat match goal with E : N.eqb _ _ = false |- _ => rewrite E; clear E end.
Qed.

Lemma entity_decode_escape s : entity_decode 0 (html_escape s) = s.
Proof.
  induction s as [|c s IH]; [reflexivity|].
  rewrite html_escape_cons. unfold escape_char.
  destruct (N.eqb c AMP) eqn:Ea.
  { apply N.eqb_eq in Ea. subst c. simpl. now rewrite IH. }
  destruct (N.eqb c LT) eqn:El.
  { apply N.eqb_eq in El. subst c. simpl. now rewrite IH. }
  destruct (N.eqb c GT) eqn:Eg.
  { apply N.eqb_eq in Eg. subst c. simpl. now rewrite IH. }
  destruct (N.eqb c QUOT) eqn:Eq.
  { apply N.eqb_eq in Eq. subst c. simpl. now rewrite IH. }
  destruct (N.eqb c APOS) eqn:Ep.
  { apply N.eqb_eq in Ep. subst c. simpl. now rewrite IH. }
  simpl. now rewrite Ea, IH.
Qed.

(** X5.  [html.escape] loses nothing.  Reading the five entities back gives
    the text that was escaped, so two different texts, two titles say,
    never have the same escaped form. *)
Theorem html_escape_is_lossless s t :
  entity_decode 0 (html_escape s) = s
  /\ (html_escape s = html_escape t -> s = t).
Proof.
  split; [apply entity_decode_escape|].
  intros H. rewrite <- (entity_decode_escape s), H.
  apply entity_decode_escape.
Qed.

Lemma html_escape_is_lossless_witness :
  entity_decode 0 (html_escape (lit "a<b & 'c' > &amp;")) = lit "a<b & 'c' > &amp;".
Proof. apply (html_escape_is_lossless _ []). Defined.

Lemma length_escape_char c :
  1 <= length (escape_char c) <= 6
  /\ (is_special c = false -> length (escape_char c) = 1).
Proof.
  split; [|intros H; now rewrite (escape_char_plain _ H)].
  unfold escape_char.
  repeat match goal with
         | |- context [if ?b then _ else _] => destruct b
         end; simpl; lia.
Qed.

(** X6.  The length of an escaped text.  Escaping never shortens a text and
    makes it at most six times as long; a text without any of the five
    special characters is returned as it is. *)
Theorem html_escape_length s :
  length s <= length (html_escape s) <= 6 * length s
  /\ (forallb (fun c => negb (is_special c)) s = true -> html_escape s = s).
Proof.
  induction s as [|c s [IHl IHe]]; [split; [simpl; lia|reflexivity]|].
  rewrite html_escape_cons, length_app.
  destruct (length_escape_char c) as [Hc Hp]. split; [simpl length; lia|].
  simpl. intros H. apply andb_prop in H as [Hs Hrest].
  apply negb_true_iff in Hs.
  now rewrite (escape_char_plain _ Hs), (IHe Hrest).
Qed.

Lemma html_escape_length_witness :
  html_escape (lit "Plain title, no markup.") = lit "Plain title, no markup.".
Proof. apply (html_escape_length (lit "Plain title, no markup.")). reflexivity. Defined.

(* ================================================================== *)
(** * The clean-up at the end of [clean_html] *)
(* ================================================================== *)

Lemma prefixb_true p s : prefixb p s = true -> exists b, s = p ++ b.
Proof.
  revert s. induction p as [|x p IH]; intros s; simpl.
  - intros _. now exists s.
  - destruct s as [|y s]; [discriminate|]. intros H.
    apply andb_prop in H as [E H]. apply N.eqb_eq in E. subst y.
    destruct (IH s H) as [b ->]. now exists b.
Qed.

Lemma prefixb_app p b : prefixb p (p ++ b) = true.
Proof. induction p as [|x p IH]; simpl; [reflexivity|]. now rewrite N.eqb_refl. Qed.

Lemma no_triple_newline_iff s :
  no_triple_newline s = true <-> ~ has_triple_newline s.
Proof.
  induction s as [|c s IH].
  - split; [|reflexivity]. intros _ ([|x a] & b & H); discriminate.
  - change (no_triple_newline (c :: s))
      with (negb (prefixb [NL; NL; NL] (c :: s)) && no_triple_newline s).
    rewrite andb_true_iff, negb_true_iff, IH. split.
    + intros [Hp Hs] ([|x a] & b & H).
      * simpl in H. rewrite H in Hp. discriminate.
      * injection H as _ H. apply Hs. now exists a, b.
    + intros Hn. split.
      * destruct (prefixb [NL; NL; NL] (c :: s)) eqn:E; [|reflexivity].
        exfalso. apply Hn. apply prefixb_true in E as [b E].
        exists [], b. exact E.
      * intros (a & b & H). apply Hn. exists (c :: a), b. now rewrite H.
Qed.

Lemma has_triple_newline_rev s :
  has_triple_newline (rev s) -> has_triple_newline s.
Proof.
  intros (a & b & H). exists (rev b), (rev a).
  apply (f_equal (@rev N)) in H. rewrite rev_involutive in H. rewrite H.
  rewrite !rev_app_distr. simpl. now rewrite <- !app_assoc.
Qed.

Lemma lstrip_suffix s : exists pre, s = pre ++ lstrip s.
Proof.
  induction s as [|c s [pre IH]]; [now exists []|]. simpl.
  destruct (py_isspace c); [|now exists []].
  exists (c :: pre). simpl. now rewrite <- IH.
Qed.

Lemma has_triple_newline_lstrip s :
  has_triple_newline (lstrip s) -> has_triple_newline s.
Proof.
  intros (a & b & H). destruct (lstrip_suffix s) as [pre E].
  exists (pre ++ a), b. rewrite E at 1. rewrite H. now rewrite <- app_assoc.
Qed.

Lemma has_triple_newline_strip s :
  has_triple_newline (strip s) -> has_triple_newline s.
Proof.
  unfold strip, rstrip. intros H.
  apply has_triple_newline_lstrip. apply has_triple_newline_rev.
  apply has_triple_newline_lstrip. apply has_triple_newline_rev.
  exact H.
Qed.

Lemma no_triple_newline_after c t k :
  N.eqb c NL = false -> no_triple_newline t = true -> k <= 2 ->
  no_triple_newline (repeat NL k ++ c :: t) = true.
Proof.
  intros Ec Ht Hk.
  assert (Ec' : N.eqb NL c = false) by now rewrite N.eqb_sym.
  assert (H0 : no_triple_newline (c :: t) = true).
  { cbn [no_triple_newline prefixb]. now rewrite Ec', Ht. }
  destruct k as [|[|[|k]]]; [exact H0| | |lia].
  - cbn [repeat app no_triple_newline prefixb].
    rewrite N.eqb_refl, Ec'. simpl. exact Ht.
  - cbn [repeat app no_triple_newline prefixb].
    rewrite !N.eqb_refl, Ec'. simpl. exact Ht.
Qed.

(** Whatever run it starts with, [collapse_newlines] writes no three line
    feeds in a row. *)
Lemma no_triple_newline_collapse s :
  forall run, no_triple_newline (collapse_newlines run s) = true.
Proof.
  induction s as [|c s IH]; intros run; simpl.
  - destruct (Nat.min run 2) as [|[|[|k]]] eqn:E; try reflexivity. lia.
  - destruct (N.eqb c NL) eqn:Ec; [apply IH|].
    apply no_triple_newline_after; [exact Ec|apply IH|lia].
Qed.

Lemma no_triple_newline_tidy s : no_triple_newline (tidy_text s) = true.
Proof.
  unfold tidy_text. apply no_triple_newline_iff. intros H.
  apply has_triple_newline_strip in H.
  revert H. apply no_triple_newline_iff. apply no_triple_newline_collapse.
Qed.

(** ** Blank text *)

Lemma blank_app a b : blank (a ++ b) = blank a && blank b.
Proof. apply forallb_app. Qed.

(** Induction that may step over two characters, as [splitlines] does at
    a carriage return followed by a line feed. *)
Lemma pystr_ind2 (P : pystr -> Prop) :
  P [] -> (forall x, P [x]) ->
  (forall x y l, P l -> P (y :: l) -> P (x :: y :: l)) ->
  forall l, P l.
Proof.
  intros H0 H1 H2 l.
  enough (H : P l /\ forall x, P (x :: l)) by apply H.
  induction l as [|y l [IH IHx]]; [auto|].
  split; [apply IHx|]. intros x. apply H2; auto.
Qed.

Lemma splitlines_from_blank s :
  forall cur,
    blank cur = true -> blank s = true ->
    Forall (fun l => blank l = true) (splitlines_from cur s).
Proof.
  induction s as [|c|c c' s IH IH'] using pystr_ind2; intros cur Hc Hs.
  - simpl. destruct cur; constructor; [|constructor]. now rewrite blank_rev.
  - assert (Hr : blank (rev cur) = true) by now rewrite blank_rev.
    simpl in *. rewrite andb_true_r in Hs.
    destruct (N.eqb c 13); [constructor; [exact Hr|constructor]|].
    destruct (is_line_boundary c); [constructor; [exact Hr|constructor]|].
    constructor; [|constructor].
    rewrite blank_app, Hr. simpl. now rewrite Hs.
  - assert (Hr : blank (rev cur) = true) by now rewrite blank_rev.
    change (blank (c :: c' :: s))
      with (py_isspace c && blank (c' :: s)) in Hs.
    apply andb_prop in Hs as [Hx Hs].
    assert (Hs' : blank s = true).
    { simpl in Hs. now apply andb_prop in Hs as [_ Hs]. }
    change (splitlines_from cur (c :: c' :: s))
      with (if N.eqb c 13 then
              if N.eqb c' 10 then rev cur :: splitlines_from [] s
              else rev cur :: splitlines_from [] (c' :: s)
            else if is_line_boundary c
                 then rev cur :: splitlines_from [] (c' :: s)
                 else splitlines_from (c :: cur) (c' :: s)).
    destruct (N.eqb c 13).
    + destruct (N.eqb c' 10); constructor; auto.
    + destruct (is_line_boundary c); [constructor; auto|].
      apply IH'; [|exact Hs]. simpl. now rewrite Hx.
Qed.

Lemma join_lines_empty ls :
  Forall (fun l => l = []) ls -> blank (join_lines ls) = true.
Proof.
  induction ls as [|l ls IH]; [reflexivity|].
  intros H. apply Forall_cons_iff in H as [-> H].
  destruct ls as [|l' ls]; [reflexivity|].
  change (join_lines ([] :: l' :: ls)) with (NL :: join_lines (l' :: ls)).
  unfold blank in *. cbn [forallb]. rewrite (IH H). reflexivity.
Qed.

Lemma collapse_newlines_blank s :
  forall run, blank s = true -> blank (collapse_newlines run s) = true.
Proof.
  assert (Hrep : forall k, blank (repeat NL k) = true).
  { induction k; [reflexivity|]. simpl. exact IHk. }
  induction s as [|c s IH]; intros run Hs; simpl; [apply Hrep|].
  simpl in Hs. apply andb_prop in Hs as [Hc Hs].
  destruct (N.eqb c NL); [now apply IH|].
  rewrite blank_app, Hrep. simpl. now rewrite Hc, IH.
Qed.

Lemma tidy_text_blank s : blank s = true -> tidy_text s = [].
Proof.
  intros H. unfold tidy_text. apply strip_nil_blank.
  apply collapse_newlines_blank, join_lines_empty.
  apply Forall_forall. intros l Hl. apply in_map_iff in Hl as (x & <- & Hx).
  apply strip_nil_blank.
  pose proof (splitlines_from_blank s [] eq_refl H) as F.
  rewrite Forall_forall in F. now apply F.
Qed.

(** ** Text that needs no cleaning *)

Lemma splitlines_from_one_line s :
  forall cur,
    forallb (fun c => negb (is_line_boundary c)) s = true ->
    splitlines_from cur s
    = match rev cur ++ s with [] => [] | l => [l] end.
Proof.
  induction s as [|c s IH]; intros cur H; simpl.
  - rewrite app_nil_r. destruct cur as [|x cur]; [reflexivity|].
    destruct (rev (x :: cur)) eqn:E; [|reflexivity].
    apply (f_equal (@length N)) in E. rewrite length_rev in E. discriminate.
  - simpl in H. apply andb_prop in H as [Hc H]. apply negb_true_iff in Hc.
    assert (H13 : N.eqb c 13 = false).
    { destruct (N.eqb c 13) eqn:E; [|reflexivity].
      apply N.eqb_eq in E. subst c. discriminate. }
    rewrite H13, Hc, (IH _ H). simpl. now rewrite <- app_assoc.
Qed.

Lemma collapse_newlines_none s :
  forallb (fun c => negb (N.eqb c NL)) s = true -> collapse_newlines 0 s = s.
Proof.
  induction s as [|c s IH]; [reflexivity|]. simpl. intros H.
  apply andb_prop in H as [Hc H]. apply negb_true_iff in Hc.
  now rewrite Hc, (IH H).
Qed.

Lemma tidy_text_one_line s :
  forallb (fun c => negb (is_line_boundary c)) s = true -> trimmed s ->
  tidy_text s = s.
Proof.
  intros Hb Ht. unfold tidy_text, splitlines.
  rewrite (splitlines_from_one_line s [] Hb). simpl rev. simpl app.
  destruct s as [|c s]; [reflexivity|].
  simpl map. rewrite (trimmed_strip _ Ht). simpl join_lines.
  rewrite collapse_newlines_none; [now apply trimmed_strip|].
  clear Ht. induction (c :: s) as [|x t IH]; [reflexivity|].
  simpl in *. apply andb_prop in Hb as [Hx Hb]. rewrite (IH Hb), andb_true_r.
  apply negb_true_iff. apply negb_true_iff in Hx.
  destruct (N.eqb x NL) eqn:E; [|reflexivity].
  apply N.eqb_eq in E. subst x. discriminate.
Qed.

(** X9.  What [clean_html] returns.  In an environment whose [soup_text] is
    the clean-up of the source after some [get_text], the text that
    [clean_html] returns, when the parser has not made it raise, never
    holds three line feeds in a row and neither starts nor ends with white
    space; empty content gives the empty text, with no parsing. *)
Theorem clean_html_is_tidy env html_content :
  tidies env ->
  (forall text, clean_html env html_content = Ret text ->
                no_triple_newline text = true /\ trimmed text)
  /\ clean_html env [] = Ret [].
Proof.
  intros [get_text H]. split; [|reflexivity].
  unfold clean_html. destruct html_content as [|c s]; intros text E.
  - injection E as <-. repeat split; intros c H0; discriminate.
  - destruct (parser_rejects env (c :: s)); [discriminate|].
    injection E as <-. rewrite H.
    split; [apply no_triple_newline_tidy|apply strip_trimmed].
Qed.

Lemma clean_html_is_tidy_witness :
  clean_html tidy_env (lit " a " ++ [NL; NL; 32; NL; NL; NL]%N ++ lit "b ")
  = Ret (lit "a" ++ [NL; NL] ++ lit "b")
  /\ no_triple_newline (lit "a" ++ [NL; NL] ++ lit "b") = true.
Proof.
  split; [reflexivity|].
  apply (clean_html_is_tidy tidy_env
           (lit " a " ++ [NL; NL; 32; NL; NL; NL]%N ++ lit "b ")).
  - exists (fun s => s). reflexivity.
  - reflexivity.
Defined.

(** X10.  The clean-up on blank and on clean text.  The clean-up of the
    source turns a text of white space only into the empty text, and
    returns as it is a text of one line with no white space around it. *)
Theorem tidy_text_fixed_points s :
  (blank s = true -> tidy_text s = [])
  /\ (forallb (fun c => negb (is_line_boundary c)) s = true -> trimmed s ->
      tidy_text s = s).
Proof. split; [apply tidy_text_blank|apply tidy_text_one_line]. Qed.

Lemma tidy_text_fixed_points_witness :
  tidy_text [32; NL; 13; NL; 9; 160]%N = []
  /\ tidy_text (lit "one line, kept as it is") = lit "one line, kept as it is".
Proof.
  split.
  - apply (tidy_text_fixed_points [32; NL; 13; NL; 9; 160]%N). reflexivity.
  - apply (tidy_text_fixed_points (lit "one line, kept as it is")).
    + reflexivity.
    + split; intros c H; injection H as <-; reflexivity.
Defined.

(* ================================================================== *)
(** * Exceptions that nothing catches *)
(* ================================================================== *)

(** X21.  A database outage at the first look-up ends the scheduler.  When
    the newest item of the first run has a link and the database is away
    for the connection of its [post_exists], the operational error leaves
    the poll and the scheduler loop: the loop has logged its line
    [Checking feed...], made a connection and nothing else, and none of the
    remaining answers of the feed server is polled. *)
Theorem outage_at_first_lookup_ends_scheduler env I0 l rest rs w :
  live_link I0 = Some l -> db_up env (db_ops w) = false ->
  scheduler_loop env true (Status 200 (I0 :: rest) :: rs) w
  = (Raise OperationalError,
     {| posts := posts w; calls := calls w; log := log w ++ [InfoChecking];
        db_ops := S (db_ops w); slept := slept w |}).
Proof.
  intros El Hd. apply raise_ends_scheduler_loop.
  rewrite process_feed_200, bootstrap_cons. unfold bind.
  now rewrite (proj1 (outage_leaves_loop_bodies env I0 l
                       (snd (logging InfoChecking w)) El Hd)).
Qed.

Lemma outage_at_first_lookup_ends_scheduler_witness :
  scheduler_loop outage_env true (Status 200 [item_b; item_a] :: three_polls)
    (tick fresh)
  = (Raise OperationalError,
     {| posts := []; calls := []; log := [InfoChecking];
        db_ops := 2; slept := 0 |}).
Proof.
  apply (outage_at_first_lookup_ends_scheduler outage_env item_b
           (lit "https://e.org/b") [item_a] three_polls (tick fresh));
    reflexivity.
Defined.

(** X22.  An enclosure without url ends the poll.  While the database is
    available, an item with an unrecorded link whose [enclosure] tag has no
    [url] attribute makes [send_item] raise before any call: the key
    error, or the parser's exception when the parser has rejected its
    content before.  As newest item of the first run and as oldest item of
    a later poll it ends the poll after one database connection, with no
    call, no row and no log line, and the items after it are not
    processed; the error then ends the scheduler loop. *)
Theorem enclosure_without_url_ends_poll env it l others rs w :
  available env -> live_link it = Some l ->
  has_link l (posts w) = false -> enclosure it = Some None ->
  exists e,
    (parses env it -> e = KeyError)
    /\ (~ parses env it -> e = ParserRejectedMarkup)
    /\ process_feed env true (Status 200 (it :: others)) w
       = (Raise e, tick w)
    /\ process_feed env false (Status 200 (others ++ [it])) w
       = (Raise e, tick w)
    /\ fst (scheduler_loop env false (Status 200 (others ++ [it]) :: rs) w)
       = Raise e.
Proof.
  intros Hup El Hl He.
  assert (Hstep : exists e,
             (parses env it -> e = KeyError)
             /\ (~ parses env it -> e = ParserRejectedMarkup)
             /\ forall w0, has_link l (posts w0) = false ->
                           steady_step env it w0 = (Raise e, tick w0)).
  { destruct (clean_html env (item_content_html it)) as [t|e] eqn:Ht.
    - exists KeyError. split; [reflexivity|].
      split; [intros N; destruct N; exact (clean_html_returns env it t Ht)|].
      intros w0 H0.
      exact (steady_step_key_error env Hup it l t w0 El H0 Ht He).
    - exists e. split; [|split].
      + unfold parses. rewrite Ht. discriminate.
      + intros _. exact (clean_html_raises _ _ _ Ht).
      + intros w0 H0.
        exact (steady_step_rejected_markup env Hup it l e w0 El H0 Ht). }
  destruct Hstep as (e & Hk & Hm & Hstep). exists e.
  split; [exact Hk|]. split; [exact Hm|].
  assert (H1 : process_feed env false (Status 200 (others ++ [it])) w
               = (Raise e, tick w)).
  { rewrite process_feed_steady. unfold steady. rewrite rev_unit.
    cbn [for_each]. unfold bind. now rewrite (Hstep w Hl). }
  split; [|split; [exact H1|]].
  - rewrite process_feed_200, bootstrap_cons. unfold bind.
    now rewrite (Hstep w Hl).
  - rewrite scheduler_loop_cons.
    rewrite process_feed_steady. unfold steady. rewrite rev_unit.
    cbn [for_each]. unfold bind.
    rewrite (Hstep (snd (logging InfoChecking w)) Hl).
    reflexivity.
Qed.

Lemma enclosure_without_url_ends_poll_witness :
  process_feed plain_env false
    (Status 200 [item_b; item_a; bare_enclosure_item]) fresh
  = (Raise KeyError, tick fresh).
Proof.
  destruct (enclosure_without_url_ends_poll plain_env bare_enclosure_item
              (lit "https://e.org/d") [item_b; item_a] [] fresh)
    as (e & Hk & _ & _ & H & _).
  - intros n. reflexivity.
  - reflexivity.
  - reflexivity.
  - reflexivity.
  - rewrite <- (Hk eq_refl). exact H.
Defined.

(* ================================================================== *)
(** * Instances of earlier lemmas *)
(* ================================================================== *)

Lemma store_error_while_recording_witness :
  for_each [item_a; item_b] (steady_step late_outage_env)
    {| posts := []; calls := []; log := []; db_ops := 1; slept := 0 |}
  = for_each [item_b] (steady_step late_outage_env)
      (sent_unrecorded late_outage_env item_a (lit "https://e.org/a")
         OperationalError
         (tick {| posts := []; calls := []; log := [];
                  db_ops := 1; slept := 0 |})).
Proof.
  apply (store_error_while_recording late_outage_env item_a
           (lit "https://e.org/a")
           {| posts := []; calls := []; log := []; db_ops := 1; slept := 0 |});
    try reflexivity.
  unfold well_formed. simpl. discriminate.
Defined.

Lemma truncated_body_and_message_length_witness :
  length (item_message plain_env long_title_item (lit "https://e.org/1"))
  = 938 + (200 + 15 + 0).
Proof.
  apply (truncated_body_and_message_length plain_env long_title_item
           (lit "https://e.org/1")).
  - reflexivity.
  - vm_compute. lia.
Defined.

Lemma title_and_short_body_escaped_witness :
  escaped_ok
    (body_part
       (html_escape
          (item_text_content plain_env
             (post "https://e.org/q" "Q & A" "if a < b then b > a"))))
  = true.
Proof.
  apply (title_and_short_body_escaped plain_env
           (post "https://e.org/q" "Q & A" "if a < b then b > a")
           (lit "https://e.org/q")).
  vm_compute. lia.
Defined.

(* ================================================================== *)
(** * The clean-up, applied twice *)
(* ================================================================== *)

(** ** [collapse_newlines] on a text without long runs *)

Lemma repeat_snoc_app (x : N) n l : repeat x (S n) ++ l = repeat x n ++ x :: l.
Proof.
  change (repeat x (S n)) with (x :: repeat x n).
  rewrite repeat_cons, <- app_assoc. reflexivity.
Qed.

Lemma has_triple_newline_repeat run l :
  3 <= run -> has_triple_newline (repeat NL run ++ l).
Proof.
  intros H. exists [], (repeat NL (run - 3) ++ l).
  replace run with (3 + (run - 3)) at 1 by lia. reflexivity.
Qed.

Lemma collapse_newlines_short s :
  forall run,
    ~ has_triple_newline (repeat NL run ++ s) ->
    collapse_newlines run s = repeat NL run ++ s.
Proof.
  induction s as [|c s IH]; intros run H.
  - simpl. rewrite app_nil_r.
    destruct (Nat.le_gt_cases 3 run) as [L|L];
      [destruct H; now apply has_triple_newline_repeat|].
    now rewrite Nat.min_l by lia.
  - assert (Hrun : run <= 2).
    { destruct (Nat.le_gt_cases 3 run) as [L|L]; [|lia].
      destruct H. now apply has_triple_newline_repeat. }
    simpl. destruct (N.eqb c NL) eqn:Ec.
    + apply N.eqb_eq in Ec. subst c. rewrite <- repeat_snoc_app.
      apply IH. now rewrite repeat_snoc_app.
    + rewrite Nat.min_l by lia. do 2 f_equal.
      apply (IH 0). simpl. intros (a & b & E). apply H.
      exists (repeat NL run ++ c :: a), b. rewrite E.
      now rewrite <- app_assoc.
Qed.

(** ** [smooth] *)

Lemma pair_ok_sym x y : pair_ok x y = pair_ok y x.
Proof. unfold pair_ok. apply andb_comm. Qed.

Lemma pair_ok_plain x y :
  N.eqb x NL = false -> N.eqb y NL = false -> pair_ok x y = true.
Proof. intros Hx Hy. unfold pair_ok. now rewrite Hx, Hy. Qed.

Lemma pair_ok_feeds : pair_ok NL NL = true.
Proof. reflexivity. Qed.

Lemma pair_ok_before x :
  pair_ok x NL = true -> x = NL \/ py_isspace x = false.
Proof.
  unfold pair_ok. rewrite N.eqb_refl. simpl.
  destruct (N.eqb x NL) eqn:E; [apply N.eqb_eq in E; now left|].
  simpl. destruct (py_isspace x); [discriminate|now right].
Qed.

Lemma pair_ok_after_feed y :
  (y = NL \/ py_isspace y = false) -> pair_ok NL y = true.
Proof.
  unfold pair_ok. rewrite N.eqb_refl. simpl.
  intros [->|H]; [reflexivity|]. rewrite H.
  now rewrite !andb_false_r.
Qed.

Lemma smooth_cons x s :
  smooth (x :: s)
  = match hd_error s with Some y => pair_ok x y | None => true end
    && smooth s.
Proof. destruct s; reflexivity. Qed.

Lemma smooth_tail x s : smooth (x :: s) = true -> smooth s = true.
Proof. rewrite smooth_cons. intros H. now apply andb_prop in H. Qed.

Lemma smooth_app a x y b :
  smooth (a ++ x :: y :: b)
  = smooth (a ++ [x]) && pair_ok x y && smooth (y :: b).
Proof.
  induction a as [|c a IH].
  - reflexivity.
  - change ((c :: a) ++ x :: y :: b) with (c :: (a ++ x :: y :: b)).
    change ((c :: a) ++ [x]) with (c :: (a ++ [x])).
    rewrite !(smooth_cons c), IH.
    replace (hd_error (a ++ x :: y :: b)) with (hd_error (a ++ [x]))
      by (destruct a; reflexivity).
    now rewrite !andb_assoc.
Qed.

Lemma smooth_rev s : smooth (rev s) = smooth s.
Proof.
  induction s as [|c s IH]; [reflexivity|].
  destruct s as [|d s]; [reflexivity|].
  change (rev (c :: d :: s)) with ((rev s ++ [d]) ++ [c]).
  rewrite <- app_assoc. change ([d] ++ [c]) with (d :: c :: []).
  rewrite smooth_app. change (rev s ++ [d]) with (rev (d :: s)).
  rewrite IH. simpl smooth at 2. rewrite andb_true_r.
  change (smooth (c :: d :: s)) with (pair_ok c d && smooth (d :: s)).
  rewrite (pair_ok_sym d c). apply andb_comm.
Qed.

Lemma smooth_lstrip s : smooth s = true -> smooth (lstrip s) = true.
Proof.
  induction s as [|c s IH]; [reflexivity|]. intros H. simpl.
  destruct (py_isspace c); [|exact H]. apply IH. exact (smooth_tail _ _ H).
Qed.

Lemma smooth_strip s : smooth s = true -> smooth (strip s) = true.
Proof.
  intros H. unfold strip, rstrip. rewrite smooth_rev.
  apply smooth_lstrip. rewrite smooth_rev. now apply smooth_lstrip.
Qed.

Lemma smooth_repeat k : smooth (repeat NL k) = true.
Proof.
  induction k as [|k IH]; [reflexivity|].
  change (repeat NL (S k)) with (NL :: repeat NL k).
  rewrite smooth_cons, IH. destruct k; reflexivity.
Qed.

Lemma hd_collapse_newlines s :
  forall run,
    hd_error (collapse_newlines run s) = hd_error (repeat NL run ++ s).
Proof.
  induction s as [|c s IH]; intros run.
  - simpl. rewrite app_nil_r. destruct run as [|[|run]]; reflexivity.
  - simpl. destruct (N.eqb c NL) eqn:Ec.
    + apply N.eqb_eq in Ec. subst c. rewrite IH, repeat_snoc_app. reflexivity.
    + destruct run as [|[|run]]; reflexivity.
Qed.

Lemma smooth_feeds_then k c t :
  (k = 0 \/ pair_ok NL c = true) -> smooth (c :: t) = true ->
  smooth (repeat NL k ++ c :: t) = true.
Proof.
  intros Hk H. induction k as [|k IH]; [exact H|].
  change (repeat NL (S k) ++ c :: t) with (NL :: (repeat NL k ++ c :: t)).
  rewrite smooth_cons. destruct Hk as [Hk|Hk]; [discriminate|].
  rewrite (IH (or_intror Hk)), andb_true_r.
  destruct k; simpl; [exact Hk|reflexivity].
Qed.

Lemma smooth_collapse_newlines s :
  forall run,
    smooth (repeat NL run ++ s) = true ->
    smooth (collapse_newlines run s) = true.
Proof.
  induction s as [|c s IH]; intros run H.
  - simpl. apply smooth_repeat.
  - simpl. destruct (N.eqb c NL) eqn:Ec.
    + apply N.eqb_eq in Ec. subst c. apply IH. now rewrite repeat_snoc_app.
    + assert (Hc : smooth (c :: s) = true).
      { clear IH. induction run as [|run IHr]; [exact H|].
        apply IHr. exact (smooth_tail _ _ H). }
      apply smooth_feeds_then.
      * destruct run as [|run]; [now left|right].
        clear IH Hc. induction run as [|run IHr].
        -- simpl in H. now apply andb_prop in H.
        -- apply IHr. exact (smooth_tail _ _ H).
      * rewrite smooth_cons, hd_collapse_newlines. simpl app.
        rewrite smooth_cons in Hc. apply andb_prop in Hc as [Hp Hs].
        rewrite Hp. now apply (IH 0).
Qed.

(** ** Lines of a text in tidied form *)

Lemma hd_error_app (a b : pystr) c :
  hd_error a = Some c -> hd_error (a ++ b) = Some c.
Proof. destruct a; [discriminate|exact (fun H => H)]. Qed.

Lemma hd_error_In (a : pystr) c : hd_error a = Some c -> In c a.
Proof. destruct a; [discriminate|]. intros H. injection H as ->. now left. Qed.

Lemma not_boundary_not_feed c :
  is_line_boundary c = false -> N.eqb c NL = false.
Proof.
  intros H. destruct (N.eqb c NL) eqn:E; [|reflexivity].
  apply N.eqb_eq in E. subst c. discriminate.
Qed.

Lemma not_boundary_not_return c :
  is_line_boundary c = false -> N.eqb c 13 = false.
Proof.
  intros H. destruct (N.eqb c 13) eqn:E; [|reflexivity].
  apply N.eqb_eq in E. subst c. discriminate.
Qed.

Lemma line_member cur c :
  forallb (fun c => negb (is_line_boundary c)) cur = true ->
  In c cur -> N.eqb c NL = false.
Proof.
  intros H Hin. rewrite forallb_forall in H. specialize (H c Hin).
  apply not_boundary_not_feed. now destruct (is_line_boundary c).
Qed.

Lemma line_trimmed cur s :
  forallb (fun c => negb (is_line_boundary c)) cur = true ->
  (forall c, hd_error (rev cur ++ s) = Some c ->
             c = NL \/ py_isspace c = false) ->
  (forall c, hd_error cur = Some c -> py_isspace c = false) ->
  strip (rev cur) = rev cur.
Proof.
  intros Hb Hf Hl. apply trimmed_strip. split.
  - intros c Hc. destruct (Hf c (hd_error_app _ s _ Hc)) as [->|H]; [|exact H].
    apply hd_error_In, in_rev in Hc.
    pose proof (line_member _ _ Hb Hc) as E. now rewrite N.eqb_refl in E.
  - rewrite rev_involutive. exact Hl.
Qed.

Lemma splitlines_from_nonempty s :
  forall cur, s <> [] \/ cur <> [] -> splitlines_from cur s <> [].
Proof.
  induction s as [|c s IH]; intros cur H.
  - destruct H as [H|H]; [congruence|]. simpl. now destruct cur.
  - simpl. destruct (N.eqb c 13).
    + destruct s as [|c' s']; [discriminate|]. now destruct (N.eqb c' 10).
    + destruct (is_line_boundary c); [discriminate|].
      apply IH. now right.
Qed.

Lemma join_lines_cons l ls :
  ls <> [] -> join_lines (l :: ls) = l ++ NL :: join_lines ls.
Proof. destruct ls; [congruence|reflexivity]. Qed.

Lemma join_stripped_lines s :
  forall cur,
    forallb (fun c => negb (is_line_boundary c)) cur = true ->
    only_line_feeds s = true ->
    smooth (match cur with x :: _ => x :: s | [] => s end) = true ->
    (forall c, hd_error (rev cur ++ s) = Some c ->
               c = NL \/ py_isspace c = false) ->
    (forall c, hd_error (rev s ++ cur) = Some c -> py_isspace c = false) ->
    join_lines (map strip (splitlines_from cur s)) = rev cur ++ s.
Proof.
  induction s as [|c s IH]; intros cur Hb Ho Hs Hf Hl.
  - rewrite app_nil_r. destruct cur as [|x cur]; [reflexivity|].
    change (splitlines_from (x :: cur) []) with [rev (x :: cur)].
    cbn [map join_lines].
    apply (line_trimmed _ [] Hb Hf). exact Hl.
  - unfold only_line_feeds in Ho. cbn [forallb] in Ho.
    apply andb_prop in Ho as [Hc Ho].
    destruct (N.eqb c NL) eqn:Ec.
    + apply N.eqb_eq in Ec. subst c.
      change (splitlines_from cur (NL :: s))
        with (rev cur :: splitlines_from [] s).
      assert (Hne : s <> []).
      { intros ->. specialize (Hl NL eq_refl). discriminate. }
      cbn [map]. rewrite join_lines_cons.
      2:{ intros E. apply map_eq_nil in E.
          revert E. apply splitlines_from_nonempty. now left. }
      rewrite (line_trimmed _ (NL :: s) Hb Hf).
      2:{ intros x Hx. destruct cur as [|y cur]; [discriminate|].
          injection Hx as ->.
          change (smooth (x :: NL :: s))
            with (pair_ok x NL && smooth (NL :: s)) in Hs.
          apply andb_prop in Hs as [Hp _].
          destruct (pair_ok_before _ Hp) as [->|H]; [|exact H].
          pose proof (line_member _ NL Hb (or_introl eq_refl)) as E.
          discriminate. }
      rewrite (IH []).
      * reflexivity.
      * reflexivity.
      * exact Ho.
      * destruct cur; [exact (smooth_tail _ _ Hs)|].
        exact (smooth_tail _ _ (smooth_tail _ _ Hs)).
      * intros y Hy. simpl in Hy.
        assert (Hp : pair_ok NL y = true).
        { destruct s as [|z s']; [discriminate|]. injection Hy as ->.
          assert (H : smooth (NL :: y :: s') = true)
            by (destruct cur; [exact Hs|exact (smooth_tail _ _ Hs)]).
          change (smooth (NL :: y :: s'))
            with (pair_ok NL y && smooth (y :: s')) in H.
          now apply andb_prop in H. }
        rewrite pair_ok_sym in Hp. exact (pair_ok_before _ Hp).
      * intros y Hy. rewrite app_nil_r in Hy. apply Hl.
        simpl rev. rewrite <- !app_assoc. now apply hd_error_app.
    + rewrite orb_false_r in Hc. apply negb_true_iff in Hc.
      simpl splitlines_from. rewrite (not_boundary_not_return _ Hc), Hc.
      rewrite (IH (c :: cur)).
      * simpl rev. now rewrite <- app_assoc.
      * cbn [forallb]. now rewrite Hc, Hb.
      * exact Ho.
      * destruct cur; [exact Hs|exact (smooth_tail _ _ Hs)].
      * intros y Hy. simpl rev in Hy. rewrite <- app_assoc in Hy.
        destruct cur as [|x cur].
        -- simpl in Hy. injection Hy as <-.
           destruct (Hf c eq_refl) as [->|H]; [discriminate|now right].
        -- now apply Hf.
      * intros y Hy. apply Hl. simpl rev. now rewrite <- app_assoc.
Qed.

Lemma tidy_text_tidied s : tidied s -> tidy_text s = s.
Proof.
  intros (Ht & Ho & Hn & Hs). unfold tidy_text, splitlines.
  cbv zeta. rewrite (join_stripped_lines s []).
  - simpl rev. simpl app. rewrite (collapse_newlines_short s 0).
    + now apply trimmed_strip.
    + now apply no_triple_newline_iff.
  - reflexivity.
  - exact Ho.
  - exact Hs.
  - intros c Hc. right. now apply (proj1 Ht).
  - intros c Hc. rewrite app_nil_r in Hc. now apply (proj2 Ht).
Qed.

(** ** The result of the clean-up is in tidied form *)

Lemma forallb_rev (p : N -> bool) s : forallb p (rev s) = forallb p s.
Proof.
  induction s as [|c s IH]; [reflexivity|]. simpl.
  rewrite forallb_app, IH. simpl. rewrite andb_true_r. apply andb_comm.
Qed.

Lemma forallb_lstrip (p : N -> bool) s :
  forallb p s = true -> forallb p (lstrip s) = true.
Proof.
  induction s as [|c s IH]; [reflexivity|]. intros H. simpl.
  destruct (py_isspace c); [|exact H]. apply IH.
  simpl in H. now apply andb_prop in H.
Qed.

Lemma forallb_strip (p : N -> bool) s :
  forallb p s = true -> forallb p (strip s) = true.
Proof.
  intros H. unfold strip, rstrip. rewrite forallb_rev.
  apply forallb_lstrip. rewrite forallb_rev. now apply forallb_lstrip.
Qed.

Lemma forallb_repeat (p : N -> bool) x k :
  p x = true -> forallb p (repeat x k) = true.
Proof. intros H. induction k; [reflexivity|]. simpl. now rewrite H. Qed.

Lemma forallb_collapse_newlines (p : N -> bool) s :
  p NL = true -> forallb p s = true ->
  forall run, forallb p (collapse_newlines run s) = true.
Proof.
  intros Hp. induction s as [|c s IH]; intros H run.
  - simpl. now apply forallb_repeat.
  - simpl in H. apply andb_prop in H as [Hc H]. simpl.
    destruct (N.eqb c NL); [now apply IH|].
    rewrite forallb_app, forallb_repeat by exact Hp.
    simpl. now rewrite Hc, IH.
Qed.

Lemma splitlines_from_lines s :
  forall cur,
    forallb (fun c => negb (is_line_boundary c)) cur = true ->
    Forall (fun l => forallb (fun c => negb (is_line_boundary c)) l = true)
           (splitlines_from cur s).
Proof.
  induction s as [|c|c c' s IH IH'] using pystr_ind2; intros cur Hc.
  - simpl. destruct cur; constructor; [|constructor]. now rewrite forallb_rev.
  - assert (Hr : forallb (fun c => negb (is_line_boundary c)) (rev cur) = true)
      by now rewrite forallb_rev.
    simpl.
    destruct (N.eqb c 13); [constructor; [exact Hr|constructor]|].
    destruct (is_line_boundary c) eqn:Eb; [constructor; [exact Hr|constructor]|].
    constructor; [|constructor].
    rewrite forallb_app, Hr. simpl. now rewrite Eb.
  - assert (Hr : forallb (fun c => negb (is_line_boundary c)) (rev cur) = true)
      by now rewrite forallb_rev.
    change (splitlines_from cur (c :: c' :: s))
      with (if N.eqb c 13 then
              if N.eqb c' 10 then rev cur :: splitlines_from [] s
              else rev cur :: splitlines_from [] (c' :: s)
            else if is_line_boundary c
                 then rev cur :: splitlines_from [] (c' :: s)
                 else splitlines_from (c :: cur) (c' :: s)).
    destruct (N.eqb c 13).
    + destruct (N.eqb c' 10); constructor; auto.
    + destruct (is_line_boundary c) eqn:Eb; [constructor; auto|].
      apply IH'. simpl. now rewrite Eb.
Qed.

Lemma stripped_lines s :
  Forall (fun l => trimmed l
                   /\ forallb (fun c => negb (is_line_boundary c)) l = true)
         (map strip (splitlines s)).
Proof.
  apply Forall_forall. intros l Hl.
  apply in_map_iff in Hl as (x & <- & Hx). split; [apply strip_trimmed|].
  apply forallb_strip.
  pose proof (splitlines_from_lines s [] eq_refl) as H.
  rewrite Forall_forall in H. exact (H x Hx).
Qed.

Lemma only_line_feeds_join L :
  Forall (fun l => trimmed l
                   /\ forallb (fun c => negb (is_line_boundary c)) l = true) L ->
  only_line_feeds (join_lines L) = true.
Proof.
  assert (Hw : forall l,
             forallb (fun c => negb (is_line_boundary c)) l = true ->
             only_line_feeds l = true).
  { intros l H. unfold only_line_feeds. rewrite forallb_forall in *.
    intros c Hc. now rewrite (H c Hc). }
  induction L as [|l rest IH]; intros H; [reflexivity|].
  inversion H as [|? ? [_ Hl] Hrest]; subst.
  destruct rest as [|l' rest]; [now apply Hw|].
  rewrite join_lines_cons by discriminate.
  unfold only_line_feeds in *. rewrite forallb_app.
  rewrite (Hw l Hl). cbn [forallb]. rewrite (IH Hrest). reflexivity.
Qed.

Lemma smooth_line l :
  forallb (fun c => negb (is_line_boundary c)) l = true -> smooth l = true.
Proof.
  induction l as [|x l IH]; [reflexivity|]. intros H.
  cbn [forallb] in H. apply andb_prop in H as [Hx H].
  rewrite smooth_cons, (IH H), andb_true_r.
  destruct l as [|y l]; [reflexivity|]. cbn [hd_error].
  cbn [forallb] in H. apply andb_prop in H as [Hy _].
  apply negb_true_iff in Hx, Hy.
  apply pair_ok_plain; now apply not_boundary_not_feed.
Qed.

Lemma smooth_line_then l X :
  forallb (fun c => negb (is_line_boundary c)) l = true ->
  (forall c, hd_error (rev l) = Some c -> py_isspace c = false) ->
  (forall c, hd_error X = Some c -> c = NL \/ py_isspace c = false) ->
  smooth X = true -> smooth (l ++ NL :: X) = true.
Proof.
  intros Hb Hl HX HsX. induction l as [|x l IH].
  - simpl app. rewrite smooth_cons, HsX, andb_true_r.
    destruct (hd_error X) as [y|] eqn:E; [|reflexivity].
    apply pair_ok_after_feed. now apply HX.
  - cbn [forallb] in Hb. apply andb_prop in Hb as [Hx Hb].
    change ((x :: l) ++ NL :: X) with (x :: (l ++ NL :: X)).
    rewrite smooth_cons. rewrite IH.
    + rewrite andb_true_r. destruct l as [|y l].
      * cbn [app hd_error]. rewrite pair_ok_sym.
        apply pair_ok_after_feed. right. now apply Hl.
      * cbn [app hd_error]. cbn [forallb] in Hb.
        apply andb_prop in Hb as [Hy _]. apply negb_true_iff in Hx, Hy.
        apply pair_ok_plain; now apply not_boundary_not_feed.
    + exact Hb.
    + intros c Hc. apply Hl. simpl rev. now apply hd_error_app.
Qed.

Lemma hd_join_lines L :
  Forall (fun l => trimmed l
                   /\ forallb (fun c => negb (is_line_boundary c)) l = true) L ->
  forall c, hd_error (join_lines L) = Some c -> c = NL \/ py_isspace c = false.
Proof.
  intros H c Hc. destruct L as [|l rest]; [discriminate|].
  inversion H as [|? ? [[Hl _] _] _]; subst.
  destruct rest as [|l' rest]; [right; now apply Hl|].
  rewrite join_lines_cons in Hc by discriminate.
  destruct l as [|x l]; [injection Hc as <-; now left|].
  right. now apply Hl.
Qed.

Lemma smooth_join L :
  Forall (fun l => trimmed l
                   /\ forallb (fun c => negb (is_line_boundary c)) l = true) L ->
  smooth (join_lines L) = true.
Proof.
  induction L as [|l rest IH]; intros H; [reflexivity|].
  inversion H as [|? ? [[_ Hl] Hb] Hrest]; subst.
  destruct rest as [|l' rest]; [now apply smooth_line|].
  rewrite join_lines_cons by discriminate.
  apply smooth_line_then; auto. now apply hd_join_lines.
Qed.

Lemma tidied_tidy_text s : tidied (tidy_text s).
Proof.
  pose proof (stripped_lines s) as HL.
  repeat split.
  - apply strip_trimmed.
  - apply strip_trimmed.
  - unfold tidy_text, only_line_feeds. apply forallb_strip.
    apply forallb_collapse_newlines; [reflexivity|].
    now apply only_line_feeds_join.
  - apply no_triple_newline_tidy.
  - unfold tidy_text. apply smooth_strip.
    apply smooth_collapse_newlines. simpl app. now apply smooth_join.
Qed.

(** X23.  The clean-up has nothing to do on its own result.  A text is
    returned as it is exactly when it is in tidied form: trimmed, with the
    line feed as its only line boundary, without three line feeds in a
    row and without white space at the start or the end of a line.  The
    result of the clean-up is in that form, so cleaning it again changes
    nothing. *)
Theorem tidy_text_idempotent s :
  tidied (tidy_text s)
  /\ tidy_text (tidy_text s) = tidy_text s
  /\ (tidy_text s = s <-> tidied s).
Proof.
  split; [apply tidied_tidy_text|]. split.
  - apply tidy_text_tidied, tidied_tidy_text.
  - split; [|apply tidy_text_tidied].
    intros E. rewrite <- E. apply tidied_tidy_text.
Qed.

(* ================================================================== *)
(** * A run stopped in the middle of a poll *)
(* ================================================================== *)


